(** * vocatalk: the orchestration layer of the wearable transcription device

    A shallow embedding of the main program (the five thread functions,
    [signalHandler] and [main]), of [Display::wrapText] and of
    [SpeechToText] ([speech_to_text.cpp]), followed by the properties the
    design document states about them.

    Conventions.
    - A [std::string] is a [string] (a sequence of 8-bit characters), a
      [std::vector<std::string>] a [list string]. [size_t] quantities are
      [nat]: the lengths involved are bounded by the address space, so the
      unsigned arithmetic of the source never wraps.
    - The globals [g_current_transcription] and [g_transcription_history]
      are the two fields of one record. A block that holds [g_text_mutex]
      is one function on that record, so the states a reader can observe
      are exactly the values between two such functions.
    - Every thread function is [while (g_running) { body }]; the body is a
      function named after the thread, and [Task.loop] is the loop.
      [Timed.loop] is the same loop on a clock, and [Orchestrator.step]
      interleaves the five loops and the signals in one process.
    - Collaborators whose code is outside the repository (the storage,
      Wi-Fi, Bluetooth, power and keyword classes, the Whisper library, the
      clock) appear as arguments: what they returned in the run under
      study. *)

From Stdlib Require Import String Ascii DecimalString Bool Arith ZArith Lia.
From Stdlib Require Import List Floats.
Import ListNotations.

Local Open Scope string_scope.
Local Open Scope list_scope.
Local Open Scope nat_scope.

(** ** General list facts used below *)

Section ListFacts.
Context {A : Type}.

Lemma tl_app_nonempty (l1 l2 : list A) :
  l1 <> [] -> tl (l1 ++ l2) = tl l1 ++ l2.
Proof. destruct l1; [congruence | reflexivity]. Qed.

Lemma tl_skipn (n : nat) (l : list A) : tl (skipn n l) = skipn (S n) l.
Proof.
  revert l; induction n as [|n IH]; intros [|x l]; try reflexivity.
  exact (IH l).
Qed.

Lemma skipn_app_le (n : nat) (l1 l2 : list A) :
  n <= length l1 -> skipn n (l1 ++ l2) = skipn n l1 ++ l2.
Proof.
  intros H. rewrite skipn_app.
  replace (n - length l1) with 0 by lia. reflexivity.
Qed.

Lemma firstn_app_le (n : nat) (l1 l2 : list A) :
  n <= length l1 -> firstn n (l1 ++ l2) = firstn n l1.
Proof.
  intros H. rewrite firstn_app.
  replace (n - length l1) with 0 by lia. cbn. apply app_nil_r.
Qed.

Lemma fold_left_snoc {B : Type} (f : B -> A -> B) (l : list A) (x : A) (b : B) :
  fold_left f (l ++ [x]) b = f (fold_left f l b) x.
Proof. rewrite fold_left_app. reflexivity. Qed.

Lemma last_snoc (l : list A) (x d : A) : last (l ++ [x]) d = x.
Proof. apply last_last. Qed.

Lemma last_nth_pred (l : list A) (d : A) : last l d = nth (length l - 1) l d.
Proof.
  induction l as [|x l _] using rev_ind; [reflexivity|].
  rewrite last_snoc, length_app, app_nth2; cbn [length]; [|lia].
  replace (length l + 1 - 1 - length l) with 0 by lia. reflexivity.
Qed.

End ListFacts.

(** [s.empty()] *)
Definition empty (s : string) : bool :=
  match s with
  | EmptyString => true
  | String _ _ => false
  end.

Lemma empty_true_iff (s : string) : empty s = true <-> s = "".
Proof. destruct s; simpl; split; congruence. Qed.

Lemma length_append (s1 s2 : string) :
  String.length (s1 ++ s2) = String.length s1 + String.length s2.
Proof. induction s1 as [|c s1 IH]; simpl; [reflexivity | now rewrite IH]. Qed.

(** ** The thread loop ([while (g_running) { ... }]) *)

Module Task.

(** [g_running] as one thread reads it. The flag starts [true] and its
    only writer is [signalHandler], which stores [false]: a thread reads
    [true] in its tests number 0 to [c - 1] and [false] from test [c] on,
    where [c] counts the tests it made before the handler ran; [None]
    when the handler never runs. *)
Definition g_running (cleared : option nat) (test : nat) : bool :=
  match cleared with
  | Some c => test <? c
  | None => true
  end.

Section Loop.
Context {State : Type}.

(** The loop body, sleep included, at its [k]-th execution. *)
Variable body : nat -> State -> State.
Variable cleared : option nat.

(** The loop from its [k]-th test of the flag on: [Some (n, s)] when the
    thread function returns, after [n] executions of the body in all and in
    state [s]; [None] when it is still looping after [fuel] tests. *)
Fixpoint loop (fuel k : nat) (s : State) : option (nat * State) :=
  match fuel with
  | 0 => None
  | S fuel' =>
      if g_running cleared k then loop fuel' (S k) (body k s)
      else Some (k, s)
  end.

(** The bodies number [k] to [k + n - 1], in order. *)
Fixpoint bodies (n k : nat) (s : State) : State :=
  match n with
  | 0 => s
  | S n' => bodies n' (S k) (body k s)
  end.

End Loop.

Lemma loop_returns {State} (body : nat -> State -> State) (c : nat) :
  forall n k fuel s,
    k + n = c -> n < fuel ->
    loop body (Some c) fuel k s = Some (c, bodies body n k s).
Proof.
  induction n as [|n IH]; intros k [|fuel] s Hk Hfuel; try lia;
    cbn [loop g_running bodies].
  - assert (k = c) by lia. subst k. now rewrite Nat.ltb_irrefl.
  - replace (k <? c) with true by (symmetry; apply Nat.ltb_lt; lia).
    apply IH; lia.
Qed.

Lemma loop_never_returns {State} (body : nat -> State -> State) :
  forall fuel k s, loop body None fuel k s = None.
Proof. induction fuel as [|fuel IH]; intros k s; cbn; auto. Qed.

End Task.

(** ** The shared transcript state (the globals of the main program and
    the critical section of [audioProcessingThread]) *)

Module Shared.

Record state : Type := mkState {
  g_current_transcription : string;
  g_transcription_history : list string
}.

(** Both globals are default-constructed. *)
Definition initial : state := mkState "" [].

(** The block guarded by [g_text_mutex] in [audioProcessingThread]:
<<
    g_current_transcription = text;
    g_transcription_history.push_back(text);
    if (g_transcription_history.size() > 100)
        g_transcription_history.erase(g_transcription_history.begin());
>> *)
Definition append (text : string) (s : state) : state :=
  let pushed := g_transcription_history s ++ [text] in
  mkState text (if 100 <? length pushed then tl pushed else pushed).

(** A sequence of appends, oldest first. *)
Definition appends (texts : list string) (s : state) : state :=
  fold_left (fun s text => append text s) texts s.

(** The state a reader holding the mutex sees once the first [n] appends
    of [texts] have happened (all of them when [n] exceeds their number). *)
Definition observe (texts : list string) (n : nat) : state :=
  appends (firstn n texts) initial.

Lemma appends_snoc texts text s :
  appends (texts ++ [text]) s = append text (appends texts s).
Proof. unfold appends. now rewrite fold_left_snoc. Qed.

Lemma history_appends (texts : list string) :
  g_transcription_history (appends texts initial)
  = skipn (length texts - 100) texts.
Proof.
  induction texts as [|text texts IH] using rev_ind; [reflexivity|].
  rewrite appends_snoc. unfold append. cbn [g_transcription_history].
  rewrite IH, !length_app, length_skipn. cbn [length].
  destruct (Nat.ltb_spec 100 (length texts - (length texts - 100) + 1)) as [Hgt|Hle].
  - rewrite tl_app_nonempty.
    + rewrite tl_skipn, skipn_app_le by lia. f_equal. f_equal. lia.
    + intros E. apply (f_equal (@length _)) in E.
      rewrite length_skipn in E. simpl in E. lia.
  - replace (length texts - 100) with 0 by lia.
    replace (length texts + 1 - 100) with 0 by lia. reflexivity.
Qed.

Lemma current_appends (texts : list string) :
  g_current_transcription (appends texts initial) = last texts "".
Proof.
  induction texts as [|text texts _] using rev_ind; [reflexivity|].
  now rewrite appends_snoc, last_snoc.
Qed.

Lemma length_history_appends (texts : list string) :
  length (g_transcription_history (appends texts initial))
  = Nat.min (length texts) 100.
Proof. rewrite history_appends, length_skipn. lia. Qed.

End Shared.

(** ** The speech-to-text engine ([speech_to_text.h], [speech_to_text.cpp]) *)

Module Stt.

Inductive Engine : Type := WHISPER | VOSK | DEEPSPEECH.

(** The object: [engine], [language], and the opaque [engine_handle]
    ([None] is [nullptr], [Some ctx] a context returned by
    [whisper_init_from_file]). *)
Record SpeechToText : Type := mkStt {
  engine : Engine;
  language : string;
  engine_handle : option nat
}.

Definition isupper (c : ascii) : bool :=
  (65 <=? nat_of_ascii c) && (nat_of_ascii c <=? 90).

(** [std::tolower] on an [unsigned char] in the "C" locale. *)
Definition tolower (c : ascii) : ascii :=
  if isupper c then ascii_of_nat (nat_of_ascii c + 32) else c.

(** [std::transform(s.begin(), s.end(), s.begin(), f)] *)
Fixpoint transform (f : ascii -> ascii) (s : string) : string :=
  match s with
  | EmptyString => EmptyString
  | String c s' => String (f c) (transform f s')
  end.

(** [SpeechToText::setEngine]: the new object and the lines written to
    [std::cerr]. *)
Definition setEngine (engine_name : string) (o : SpeechToText)
  : SpeechToText * list string :=
  let name_lower := transform tolower engine_name in
  let set e := mkStt e (language o) (engine_handle o) in
  if String.eqb name_lower "whisper" then (set WHISPER, [])
  else if String.eqb name_lower "vosk" then (set VOSK, [])
  else if String.eqb name_lower "deepspeech" then (set DEEPSPEECH, [])
  else (set WHISPER,
        [("Unknown engine: " ++ engine_name ++ ". Defaulting to Whisper.")%string]).

(** [SpeechToText::cleanupEngine] *)
Definition cleanupEngine (o : SpeechToText) : SpeechToText :=
  match engine_handle o with
  | Some _ => mkStt (engine o) (language o) None
  | None => o
  end.

(** [SpeechToText::initializeEngine]; [model] is what
    [whisper_init_from_file] returns. The result is the object and the
    returned [bool]. *)
Definition initializeEngine (model : option nat) (o : SpeechToText)
  : SpeechToText * bool :=
  let o := cleanupEngine o in
  match engine o with
  | WHISPER =>
      match model with
      | None => (o, false)
      | Some ctx => (mkStt (engine o) (language o) (Some ctx), true)
      end
  | VOSK | DEEPSPEECH => (o, true)
  end.

(** The constructor: [None] when it throws [std::runtime_error]. The
    [engine] member has no initialiser; [setEngine] assigns it before it is
    read, so its first value does not matter. *)
Definition construct (engine_name : string) (model : option nat)
  : option SpeechToText :=
  let o := fst (setEngine engine_name (mkStt WHISPER "en" None)) in
  let (o, ok) := initializeEngine model o in
  if ok then Some o else None.

(** One call of the Whisper library on a frame: the value of
    [whisper_full] and the segment texts it then exposes. *)
Record whisper_call : Type := mkCall {
  whisper_full : Z;
  segment_text : list string
}.

(** [SpeechToText::transcribeWithWhisper] *)
Definition transcribeWithWhisper (o : SpeechToText) (w : whisper_call) : string :=
  match engine_handle o with
  | None => "Whisper model not initialized"
  | Some _ =>
      if negb (whisper_full w =? 0)%Z then "Failed to run Whisper inference"
      else fold_left (fun result seg => (result ++ seg ++ " ")%string)
                     (segment_text w) ""
  end.

Definition transcribeWithVosk : string := "Vosk transcription not implemented".

Definition transcribeWithDeepSpeech : string :=
  "DeepSpeech transcription not implemented".

(** [SpeechToText::transcribe] *)
Definition transcribe (o : SpeechToText) (w : whisper_call) : string :=
  match engine o with
  | WHISPER => transcribeWithWhisper o w
  | VOSK => transcribeWithVosk
  | DEEPSPEECH => transcribeWithDeepSpeech
  end.

(** The calls of [transcribe] that return without having produced a
    transcript: no model, a failed inference, or an engine that is a stub. *)
Definition transcription_failed (o : SpeechToText) (w : whisper_call) : bool :=
  match engine o with
  | WHISPER =>
      match engine_handle o with
      | None => true
      | Some _ => negb (whisper_full w =? 0)%Z
      end
  | VOSK | DEEPSPEECH => true
  end.

End Stt.

(** ** The capture pipeline ([audioProcessingThread]) *)

Module Capture.

(** The part of the loop body that follows [stt.transcribe]: [detect] is
    [keyword.detectKeywords]; the result is the shared state and whether
    [haptic.triggerVibration] was called. *)
Definition publish (detect : string -> bool) (text : string) (s : Shared.state)
  : Shared.state * bool :=
  if negb (empty text) then (Shared.append text s, detect text)
  else (s, false).

(** The loop body, from the Whisper call on the captured frame on. *)
Definition audioProcessingThread (detect : string -> bool)
  (o : Stt.SpeechToText) (w : Stt.whisper_call) (s : Shared.state)
  : Shared.state * bool :=
  publish detect (Stt.transcribe o w) s.

(** The shared state after the loop has run on the given transcription
    results, oldest first. *)
Definition run (detect : string -> bool) (texts : list string) (s : Shared.state)
  : Shared.state :=
  fold_left (fun s text => fst (publish detect text s)) texts s.

(** The texts the loop appends: the non-empty results. *)
Definition appended (texts : list string) : list string :=
  filter (fun text => negb (empty text)) texts.

Lemma run_appends detect texts s :
  run detect texts s = Shared.appends (appended texts) s.
Proof.
  unfold run.
  revert s; induction texts as [|text texts IH]; intros s; [reflexivity|].
  cbn [fold_left appended filter]. rewrite IH. unfold publish.
  destruct (negb (empty text)); reflexivity.
Qed.

End Capture.

(** ** The persistence task ([storageThread]) *)

Module Persist.

(** One call [storage.saveTranscription(timestamp, text)]. What the task
    does to the store is the sequence of these calls. *)
Record saved : Type := mkSaved {
  timestamp : string;
  text : string
}.

(** The texts written so far, oldest first. *)
Definition written (calls : list saved) : list string := map text calls.

Section Clock.

(** [getCurrentTimestamp() k] is the reading taken for the call number
    [k]. *)
Variable getCurrentTimestamp : nat -> string.

(** The [for] loop of [storageThread] from its first index on: one call
    per element of [pending], in index order. *)
Definition save_all (pending : list string) (calls : list saved) : list saved :=
  fold_left
    (fun calls txt => calls ++ [mkSaved (getCurrentTimestamp (length calls)) txt])
    pending calls.

(** The loop body. [current_transcriptions] is the copy of
    [g_transcription_history] taken under the mutex; the state is the local
    [last_saved_transcriptions] and the calls made so far. *)
Definition storageThread (current_transcriptions : list string)
  (state : list string * list saved) : list string * list saved :=
  let (last_saved_transcriptions, calls) := state in
  if length last_saved_transcriptions <? length current_transcriptions then
    (current_transcriptions,
     save_all (skipn (length last_saved_transcriptions) current_transcriptions)
              calls)
  else (last_saved_transcriptions, calls).

(** The capture and the persistence tasks interleaved: an event is one
    append to the shared state or one execution of the body of
    [storageThread]. *)
Inductive event : Type :=
| Append (text : string)
| Cycle.

Record system : Type := mkSystem {
  shared : Shared.state;
  last_saved_transcriptions : list string;
  calls : list saved
}.

Definition boot : system := mkSystem Shared.initial [] [].

Definition step (sys : system) (e : event) : system :=
  match e with
  | Append txt =>
      mkSystem (Shared.append txt (shared sys))
               (last_saved_transcriptions sys) (calls sys)
  | Cycle =>
      let (last, calls) :=
        storageThread (Shared.g_transcription_history (shared sys))
                      (last_saved_transcriptions sys, calls sys) in
      mkSystem (shared sys) last calls
  end.

Definition exec (events : list event) (sys : system) : system :=
  fold_left step events sys.

(** The logical record stream of a run: every text appended, in order. *)
Definition stream (events : list event) : list string :=
  flat_map (fun e => match e with Append txt => [txt] | Cycle => [] end) events.

Lemma written_save_all pending calls :
  written (save_all pending calls) = written calls ++ pending.
Proof.
  unfold save_all, written. revert calls.
  induction pending as [|txt pending IH]; intros calls; cbn [fold_left].
  - now rewrite app_nil_r.
  - rewrite IH, map_app, <- app_assoc. reflexivity.
Qed.

Lemma exec_snoc events e sys :
  exec (events ++ [e]) sys = step (exec events sys) e.
Proof. unfold exec. now rewrite fold_left_snoc. Qed.

Lemma stream_snoc_append events txt :
  stream (events ++ [Append txt]) = stream events ++ [txt].
Proof. unfold stream. rewrite flat_map_app. reflexivity. Qed.

Lemma stream_snoc_cycle events : stream (events ++ [Cycle]) = stream events.
Proof. unfold stream. rewrite flat_map_app. cbn. apply app_nil_r. Qed.

(** The shared state only sees the appends. *)
Lemma shared_exec events :
  shared (exec events boot) = Shared.appends (stream events) Shared.initial.
Proof.
  induction events as [|e events IH] using rev_ind; [reflexivity|].
  rewrite exec_snoc. destruct e as [txt|].
  - rewrite stream_snoc_append, Shared.appends_snoc, <- IH. reflexivity.
  - rewrite stream_snoc_cycle, <- IH. cbn [step].
    now destruct (storageThread _ _).
Qed.

End Clock.

End Persist.

(** ** The durable store ([StorageManager], declared in
    [storage_manager.h], which is not part of the repository) *)

Module Storage.

(** The two operations [connectivityThread] calls, on a store of any
    representation; [batch] is what [getUnsyncedTranscriptions] returns. *)
Class Manager (store batch : Type) : Type := mkManager {
  getUnsyncedTranscriptions : store -> batch;
  markTranscriptionsAsSynced : store -> store
}.

(** A stored transcription with its "synced to the backup" flag. *)
Record record : Type := mkRecord {
  timestamp : string;
  text : string;
  synced : bool
}.

(** Modelled from the spec: [StorageManager::saveTranscription] is missing;
    the design document's [DurableStore.append(timestamp, text)] adds one
    record, whose sync flag is "cleared at creation". *)
Definition saveTranscription (timestamp text : string) (st : list record)
  : list record :=
  st ++ [mkRecord timestamp text false].

(** Modelled from the spec: [StorageManager::getUnsyncedTranscriptions] is
    missing; the design document's [unsyncedRecords()] returns the records
    not yet synced, in stored order. *)
Definition unsynced (st : list record) : list record :=
  filter (fun r => negb (synced r)) st.

(** Modelled from the spec: [StorageManager::markTranscriptionsAsSynced] is
    missing. It is called without arguments, so it is told nothing about
    the upload: it sets the flag of every stored record. *)
Definition mark_all (st : list record) : list record :=
  map (fun r => mkRecord (timestamp r) (text r) true) st.

#[global]
Instance durable : Manager (list record) (list record) :=
  mkManager (list record) (list record) unsynced mark_all.

Lemma mark_all_synced st : Forall (fun r => synced r = true) (mark_all st).
Proof. unfold mark_all. apply Forall_map, Forall_forall. reflexivity. Qed.

Lemma mark_all_texts st : map text (mark_all st) = map text st.
Proof. unfold mark_all. now rewrite map_map. Qed.

Lemma unsynced_mark_all st : unsynced (mark_all st) = [].
Proof. induction st as [|r st IH]; [reflexivity | exact IH]. Qed.

End Storage.

(** ** The connectivity task ([connectivityThread]) *)

Module Connectivity.

(** What the links report in one execution of the body. [&&] evaluates
    [wifi.isConnected()] only when [wifi.isEnabled()] holds; both are
    queries, so only their conjunction matters. *)
Record links : Type := mkLinks {
  bt_isConnected : bool;
  wifi_isEnabled : bool;
  wifi_isConnected : bool
}.

(** What one execution of the body does: the argument of
    [bt.syncTranscriptions] and of [wifi.backupTranscriptions] when called,
    the store afterwards, and the seconds slept. *)
Record effects (store batch : Type) : Type := mkEffects {
  bt_synced : option (list string);
  wifi_backup : option batch;
  store_after : store;
  slept : nat
}.

Arguments mkEffects {store batch}.
Arguments bt_synced {store batch}.
Arguments wifi_backup {store batch}.
Arguments store_after {store batch}.
Arguments slept {store batch}.

Section Body.
Context {store batch : Type} {SM : Storage.Manager store batch}.

(** The loop body. Whatever [wifi.backupTranscriptions] returns or
    achieves is discarded by the caller, so it is no argument here. *)
Definition connectivityThread (l : links) (g_low_power_mode : bool)
  (g_transcription_history : list string) (st : store) : effects store batch :=
  let bt := if bt_isConnected l then Some g_transcription_history else None in
  let pause := if g_low_power_mode then 300 else 60 in
  if wifi_isEnabled l && wifi_isConnected l then
    mkEffects bt (Some (Storage.getUnsyncedTranscriptions st))
              (Storage.markTranscriptionsAsSynced st) pause
  else mkEffects bt None st pause.

End Body.

(** The outcome of an upload, decided by the network: the records of the
    batch that reached the backup. *)
Definition delivery : Type := Storage.record -> bool.

(** "A record is marked as synced only when its upload succeeded": every
    record that the body turns from unsynced to synced was delivered. *)
Definition marks_only_delivered (delivered : delivery)
  (before after : list Storage.record) : Prop :=
  Forall2
    (fun r r' =>
       Storage.synced r = false -> Storage.synced r' = true -> delivered r = true)
    before after.

End Connectivity.

(** ** The power policy ([powerManagementThread]) *)

Module Power.

(** [g_low_power_mode] *)
Definition Normal : bool := false.
Definition Low : bool := true.

(** The literals [0.2] and [0.3] of the source have type [double]: the
    binary64 values nearest to 2/10 and 3/10. [battery_level] is a [float];
    the comparison converts it to [double], which is exact, so a level is
    given here as the binary64 value it converts to. *)
Definition low_threshold : float := 0x1.999999999999ap-3%float.
Definition high_threshold : float := 0x1.3333333333333p-2%float.

(** The loop body: the new value of [g_low_power_mode], which is also the
    argument of [power.updatePowerMode]. *)
Definition powerManagementThread (g_low_power_mode : bool)
  (battery_level : float) : bool :=
  if (battery_level <? low_threshold)%float then true
  else if (high_threshold <? battery_level)%float then false
  else g_low_power_mode.

(** The values passed to [power.updatePowerMode], one per sample. *)
Fixpoint published (g_low_power_mode : bool) (trace : list float) : list bool :=
  match trace with
  | [] => []
  | battery_level :: trace' =>
      let mode := powerManagementThread g_low_power_mode battery_level in
      mode :: published mode trace'
  end.

(** The mode once the samples of [trace] have been processed, starting from
    the initial [g_low_power_mode(false)]. *)
Definition mode_after (trace : list float) : bool :=
  fold_left powerManagementThread trace Normal.

(** The mode published last is the mode the task is left in. *)
Lemma published_snoc (trace : list float) : forall mode battery_level,
  published mode (trace ++ [battery_level])
  = published mode trace
    ++ [powerManagementThread (fold_left powerManagementThread trace mode)
          battery_level].
Proof.
  induction trace as [|x trace IH]; intros mode battery_level; cbn; [reflexivity|].
  now rewrite IH.
Qed.

(** Comparisons of binary64 values, through their specification. *)

Lemma above_high_not_below_low (x : float) :
  (high_threshold <? x)%float = true -> (x <? low_threshold)%float = false.
Proof.
  rewrite !ltb_spec.
  change (Prim2SF high_threshold) with (S754_finite false 5404319552844595 (-54)).
  change (Prim2SF low_threshold) with (S754_finite false 7205759403792794 (-55)).
  unfold SFltb, SFcompare.
  destruct (Prim2SF x) as [s|s| |s m e]; try destruct s; try discriminate; auto.
  destruct (Z.compare_spec (-54) e), (Z.compare_spec e (-55));
    auto; try discriminate; lia.
Qed.

Lemma SFleb_not_SFltb (a b : spec_float) :
  SFleb a b = true -> SFltb b a = false.
Proof.
  unfold SFleb, SFltb, SFcompare.
  destruct a as [sa|sa| |sa ma ea], b as [sb|sb| |sb mb eb];
    try destruct sa; try destruct sb; try discriminate; auto;
    rewrite (Z.compare_antisym ea eb);
    change (PosDef.Pos.compare_cont Eq mb ma) with (Pos.compare mb ma);
    change (PosDef.Pos.compare_cont Eq ma mb) with (Pos.compare ma mb);
    rewrite (Pos.compare_antisym ma mb);
    destruct (ea ?= eb)%Z; cbn [CompOpp]; auto; try discriminate;
    destruct (ma ?= mb)%positive; cbn [CompOpp]; auto; discriminate.
Qed.

Lemma at_least_low_not_below (x : float) :
  (low_threshold <=? x)%float = true -> (x <? low_threshold)%float = false.
Proof. rewrite leb_spec, ltb_spec. apply SFleb_not_SFltb. Qed.

Lemma at_most_high_not_above (x : float) :
  (x <=? high_threshold)%float = true -> (high_threshold <? x)%float = false.
Proof. rewrite leb_spec, ltb_spec. apply SFleb_not_SFltb. Qed.

End Power.

(** ** The display ([Display::showText], [Display::wrapText]) *)

Module Display.

(** [std::isspace] in the "C" locale, which is what [iss >> word] skips:
    space and the control characters 9 to 13. *)
Definition isspace (c : ascii) : bool :=
  (nat_of_ascii c =? 32) || ((9 <=? nat_of_ascii c) && (nat_of_ascii c <=? 13)).

(** The successive values of [word] in [while (iss >> word)]: the maximal
    runs of non-space characters of [text]. [word] collects the run being
    read. *)
Fixpoint extract (word text : string) : list string :=
  match text with
  | EmptyString => if empty word then [] else [word]
  | String c rest =>
      if isspace c then
        if empty word then extract "" rest else word :: extract "" rest
      else extract (word ++ String c "")%string rest
  end.

Definition words (text : string) : list string := extract "" text.

Definition chars_per_line : nat := 21.

(** The body of the [while] loop, on the pair of [lines] and
    [current_line]. *)
Definition place (st : list string * string) (word : string)
  : list string * string :=
  let (lines, current_line) := st in
  if empty current_line then (lines, word)
  else if String.length current_line + String.length word + 1 <=? chars_per_line
  then (lines, (current_line ++ " " ++ word)%string)
  else (lines ++ [current_line], word).

(** [wrapText] up to and including the flush of the last line. *)
Definition layout (text : string) (lines : list string) : list string :=
  let (lines, current_line) := fold_left place (words text) (lines, "") in
  if negb (empty current_line) then lines ++ [current_line] else lines.

(** [Display::wrapText]: [lines] is the in/out argument;
    [lines.resize(8)] keeps the first eight elements. *)
Definition wrapText (text : string) (lines : list string) : list string :=
  let lines := layout text lines in
  if 8 <? length lines then firstn 8 lines else lines.

(** The lines [Display::showText] hands to [showMultilineText]. *)
Definition showText (text : string) : list string := wrapText text [].

(** The body of [displayUpdateThread]: the lines rendered from the current
    text read under the mutex. *)
Definition displayUpdateThread (s : Shared.state) : list string :=
  showText (Shared.g_current_transcription s).

(** What the layout guarantees of a line: it fits, or it is one word of the
    text that is itself too long. *)
Definition fits_or_long_word (text line : string) : Prop :=
  String.length line <= chars_per_line \/
  (In line (words text) /\ chars_per_line < String.length line).

Lemma word_fits_or_long text word :
  In word (words text) -> fits_or_long_word text word.
Proof.
  intros Hin. unfold fits_or_long_word.
  destruct (Nat.le_gt_cases (String.length word) chars_per_line); auto.
Qed.

(** The loop invariant: the finished lines and the line under construction
    are of that kind. *)
Lemma place_invariant text ws : forall lines current_line,
  incl ws (words text) ->
  Forall (fits_or_long_word text) lines ->
  fits_or_long_word text current_line ->
  let st := fold_left place ws (lines, current_line) in
  Forall (fits_or_long_word text) (fst st) /\ fits_or_long_word text (snd st).
Proof.
  induction ws as [|word ws IH]; intros lines current_line Hincl Hlines Hcur.
  - cbn. auto.
  - assert (Hword : fits_or_long_word text word)
      by (apply word_fits_or_long, Hincl; now left).
    assert (Hws : incl ws (words text))
      by (intros w Hw; apply Hincl; now right).
    cbn [fold_left].
    assert (Hstep :
      Forall (fits_or_long_word text) (fst (place (lines, current_line) word)) /\
      fits_or_long_word text (snd (place (lines, current_line) word))).
    { unfold place. destruct (empty current_line); [now split|].
      destruct (Nat.leb_spec
                  (String.length current_line + String.length word + 1)
                  chars_per_line) as [Hfit|Hover]; cbn [fst snd]; split; auto.
      - left. rewrite !length_append. cbn [String.length]. lia.
      - apply Forall_app. split; auto. }
    destruct (place (lines, current_line) word) as [lines' current_line'].
    destruct Hstep. now apply IH.
Qed.

Lemma layout_lines text :
  Forall (fits_or_long_word text) (layout text []).
Proof.
  unfold layout.
  pose proof (place_invariant text (words text) [] ""
                (incl_refl _) (Forall_nil _)) as H.
  cbn zeta in H.
  destruct (fold_left place (words text) ([], "")) as [lines current_line].
  destruct H as [Hl Hc]; [left; cbn; lia|]. cbn [fst snd] in *.
  destruct (negb (empty current_line)); auto.
  apply Forall_app. split; auto.
Qed.

Lemma wrapText_firstn text lines :
  wrapText text lines = firstn 8 (layout text lines).
Proof.
  unfold wrapText.
  destruct (Nat.ltb_spec 8 (length (layout text lines))); [reflexivity|].
  now rewrite firstn_all2.
Qed.

End Display.

(** ** Start-up and shutdown ([main], [signalHandler]) *)

Module Orchestrator.

(** A constructor either yields its object or throws an exception derived
    from [std::exception]; the [try] block is a sequence in this monad. *)
Definition throwing (A : Type) : Type := option A.

Definition succeeded {A : Type} (c : throwing A) : bool :=
  match c with
  | Some _ => true
  | None => false
  end.

Definition bind {A B : Type} (c : throwing A) (k : A -> throwing B) : throwing B :=
  match c with
  | Some a => k a
  | None => None
  end.

Notation "x <- c ;; k" := (bind c (fun x => k))
  (at level 61, c at next level, right associativity).

(** What the hardware and the file system offer when the process starts. *)
Record startup : Type := mkStartup {
  initializeALSA : bool;
  initializeI2C : bool;
  haptic_ok : bool;
  power_ok : bool;
  bluetooth_ok : bool;
  wifi_ok : bool;
  noise_ok : bool;
  whisper_init_from_file : option nat;
  keyword_ok : bool;
  storage_ok : bool
}.

(** [AudioCapture::AudioCapture] and [Display::Display]: throw when the
    initialisation returns [false]. *)
Definition AudioCapture (hw : startup) : throwing unit :=
  if negb (initializeALSA hw) then None else Some tt.

Definition Display (hw : startup) : throwing unit :=
  if negb (initializeI2C hw) then None else Some tt.

(** Modelled from the spec: the constructors of [HapticFeedback],
    [PowerManager], [BluetoothManager], [WiFiManager], [NoiseReduction],
    [KeywordDetector] and [StorageManager] are missing; the design document
    makes every collaborator "fatal-on-failure", as the three constructors
    of the repository are: a failed one throws. *)
Definition collaborator (ok : bool) : throwing unit :=
  if ok then Some tt else None.

(** The declarations of the [try] block, in order. *)
Definition construct_all (hw : startup) : throwing Stt.SpeechToText :=
  _ <- AudioCapture hw ;;
  _ <- Display hw ;;
  _ <- collaborator (haptic_ok hw) ;;
  _ <- collaborator (power_ok hw) ;;
  _ <- collaborator (bluetooth_ok hw) ;;
  _ <- collaborator (wifi_ok hw) ;;
  _ <- collaborator (noise_ok hw) ;;
  stt <- Stt.construct "whisper" (whisper_init_from_file hw) ;;
  _ <- collaborator (keyword_ok hw) ;;
  _ <- collaborator (storage_ok hw) ;;
  Some stt.

Inductive task : Type :=
| audio_thread
| display_thread
| storage_thread
| power_thread
| connectivity_thread.

(** The two signals that ask a process to stop. *)
Inductive signal : Type := SIGINT | SIGTERM.

(** [signal(SIGINT, signalHandler)] is the only disposition [main]
    changes. *)
Definition handled (sig : signal) : bool :=
  match sig with
  | SIGINT => true
  | SIGTERM => false
  end.

(** How the process ends: [main] returns a code, a signal with its default
    disposition kills the process before [main] returns, or the process is
    still running. *)
Inductive ending : Type :=
| Exit (code : Z)
| Killed (sig : signal)
| Running.

Record execution : Type := mkExecution {
  started : list task;
  result : ending
}.

Definition task_eqb (a b : task) : bool :=
  match a, b with
  | audio_thread, audio_thread
  | display_thread, display_thread
  | storage_thread, storage_thread
  | power_thread, power_thread
  | connectivity_thread, connectivity_thread => true
  | _, _ => false
  end.

(** The number [signalHandler] is called with. *)
Definition signum (sig : signal) : Z :=
  match sig with
  | SIGINT => 2
  | SIGTERM => 15
  end.

(** What the microphone and Whisper, the clock, the battery gauge and the
    radio links answer at the [k]-th execution of the body that asks. *)
Record environment : Type := mkEnvironment {
  whisper : nat -> Stt.whisper_call;
  detectKeywords : string -> bool;
  getCurrentTimestamp : nat -> string;
  getBatteryLevel : nat -> float;
  links : nat -> Connectivity.links
}.

(** What the bodies read and write: the globals other than [g_running],
    the local [last_saved_transcriptions] of [storageThread], the store,
    and what has been handed to the collaborators. *)
Record memory : Type := mkMemory {
  g_low_power_mode : bool;
  shared : Shared.state;
  last_saved_transcriptions : list string;
  saved : list Persist.saved;
  store : list Storage.record;
  rendered : list (list string);
  vibrations : nat;
  updatePowerMode : list bool;
  connectivity : list (Connectivity.effects (list Storage.record)
                                            (list Storage.record))
}.

(** The body of the loop of each thread function, at its [k]-th
    execution. *)
Definition body (env : environment) (stt : Stt.SpeechToText) (t : task)
  (k : nat) (m : memory) : memory :=
  match t with
  | audio_thread =>
      let r := Capture.audioProcessingThread (detectKeywords env) stt
                 (whisper env k) (shared m) in
      mkMemory (g_low_power_mode m) (fst r) (last_saved_transcriptions m)
               (saved m) (store m) (rendered m)
               (if snd r then S (vibrations m) else vibrations m)
               (updatePowerMode m) (connectivity m)
  | display_thread =>
      mkMemory (g_low_power_mode m) (shared m) (last_saved_transcriptions m)
               (saved m) (store m)
               (rendered m ++ [Display.displayUpdateThread (shared m)])
               (vibrations m) (updatePowerMode m) (connectivity m)
  | storage_thread =>
      let r := Persist.storageThread (getCurrentTimestamp env)
                 (Shared.g_transcription_history (shared m))
                 (last_saved_transcriptions m, saved m) in
      mkMemory (g_low_power_mode m) (shared m) (fst r) (snd r)
               (fold_left
                  (fun st c =>
                     Storage.saveTranscription (Persist.timestamp c)
                                               (Persist.text c) st)
                  (skipn (length (saved m)) (snd r)) (store m))
               (rendered m) (vibrations m) (updatePowerMode m)
               (connectivity m)
  | power_thread =>
      let mode := Power.powerManagementThread (g_low_power_mode m)
                    (getBatteryLevel env k) in
      mkMemory mode (shared m) (last_saved_transcriptions m) (saved m)
               (store m) (rendered m) (vibrations m)
               (updatePowerMode m ++ [mode]) (connectivity m)
  | connectivity_thread =>
      let e := Connectivity.connectivityThread (links env k)
                 (g_low_power_mode m)
                 (Shared.g_transcription_history (shared m)) (store m) in
      mkMemory (g_low_power_mode m) (shared m) (last_saved_transcriptions m)
               (saved m) (Connectivity.store_after e) (rendered m)
               (vibrations m) (updatePowerMode m) (connectivity m ++ [e])
  end.

(** The process once its five threads are started: the flag, what the
    bodies work on, the bodies executed so far, the thread functions that
    have returned, the signal that killed the process if one did, and the
    standard output of [signalHandler]. *)
Record process : Type := mkProcess {
  g_running : bool;
  work : memory;
  bodies : list task;
  returned : list task;
  killed : option signal;
  cout : list string
}.

(** [g_running(true)], [g_low_power_mode(false)], the empty transcript and
    an empty store. *)
Definition boot : process :=
  mkProcess true
            (mkMemory false Shared.initial [] [] [] [] 0 [] [])
            [] [] None [].

(** The executions of the body of [t] so far. *)
Definition iterations (t : task) (p : process) : nat :=
  length (filter (task_eqb t) (bodies p)).

(** [signalHandler] *)
Definition signalHandler (signum : Z) (p : process) : process :=
  mkProcess false (work p) (bodies p) (returned p) (killed p)
            (cout p
             ++ [("Interrupt signal ("
                  ++ NilZero.string_of_int (Z.to_int signum)
                  ++ ") received."
                  ++ String (ascii_of_nat 10) "")%string]).

(** [t.join()] returns once the thread function of [t] has returned. *)
Definition join (t : task) (p : process) : bool :=
  existsb (task_eqb t) (returned p).

(** The five [join]s of [main], in its order: [main] gets past them when
    every thread function has returned. *)
Definition join_all (p : process) : bool :=
  join audio_thread p && join display_thread p && join storage_thread p
  && join power_thread p && join connectivity_thread p.

(** Nothing runs any more: the process was killed, or [main] has got past
    its [join]s and returned. *)
Definition finished (p : process) : bool :=
  match killed p with
  | Some _ => true
  | None => join_all p
  end.

(** What happens to the process, one event at a time: a signal is
    delivered, or a thread makes its next test of [g_running] and, when it
    reads [true], executes its body (sleep included) up to its next test.
    A thread function that reads [false] returns. [signal(SIGINT,
    signalHandler)] is the one disposition [main] changes; any other
    signal keeps its default action, which ends the process. *)
Inductive event : Type :=
| Deliver (sig : signal)
| Turn (t : task).

Definition step (env : environment) (stt : Stt.SpeechToText) (p : process)
  (e : event) : process :=
  if finished p then p
  else
    match e with
    | Deliver sig =>
        if handled sig then signalHandler (signum sig) p
        else mkProcess (g_running p) (work p) (bodies p) (returned p)
                       (Some sig) (cout p)
    | Turn t =>
        if join t p then p
        else if g_running p then
          mkProcess (g_running p)
                    (body env stt t (iterations t p) (work p))
                    (bodies p ++ [t]) (returned p) (killed p) (cout p)
        else
          mkProcess (g_running p) (work p) (bodies p) (returned p ++ [t])
                    (killed p) (cout p)
    end.

(** The process after the events of [schedule], oldest first. *)
Definition run (env : environment) (stt : Stt.SpeechToText)
  (schedule : list event) (p : process) : process :=
  fold_left (step env stt) schedule p.

(** How [main] stands after the [try] block was entered with every object
    constructed: [return 0] follows the five [join]s. *)
Definition ending_of (p : process) : ending :=
  match killed p with
  | Some sig => Killed sig
  | None => if join_all p then Exit 0 else Running
  end.

(** [main]: [schedule] is what happens to the process once its threads
    are started. A constructor that throws leaves the [try] block before
    any thread is created, and [main] returns 1 from the handler. *)
Definition main (hw : startup) (env : environment) (schedule : list event)
  : execution :=
  match construct_all hw with
  | Some stt =>
      mkExecution
        [audio_thread; display_thread; storage_thread; power_thread;
         connectivity_thread]
        (ending_of (run env stt schedule boot))
  | None => mkExecution [] (Exit 1)
  end.

(** Every collaborator initialises. *)
Definition all_initialise (hw : startup) : bool :=
  initializeALSA hw && initializeI2C hw && haptic_ok hw && power_ok hw
  && bluetooth_ok hw && wifi_ok hw && noise_ok hw
  && succeeded (whisper_init_from_file hw)
  && keyword_ok hw && storage_ok hw.

Lemma construct_all_spec (hw : startup) :
  succeeded (construct_all hw) = all_initialise hw.
Proof.
  destruct hw as [a d h p b w n m k s]. unfold construct_all, all_initialise.
  cbn [initializeALSA initializeI2C haptic_ok power_ok bluetooth_ok wifi_ok
       noise_ok whisper_init_from_file keyword_ok storage_ok AudioCapture Display].
  destruct a, d, h, p, b, w, n, m, k, s; reflexivity.
Qed.

End Orchestrator.

(** ** The thread loop on a clock *)

Module Timed.

Local Open Scope Z_scope.

(** The argument of the [sleep_for] that ends the body of each thread
    function, in milliseconds. [connectivityThread] chooses it from
    [g_low_power_mode]. *)
Definition sleep_interval (t : Orchestrator.task) (g_low_power_mode : bool) : Z :=
  match t with
  | Orchestrator.audio_thread => 10
  | Orchestrator.display_thread => 100
  | Orchestrator.storage_thread => 5 * 1000
  | Orchestrator.power_thread => 60 * 1000
  | Orchestrator.connectivity_thread =>
      (if g_low_power_mode then 300 else 60) * 1000
  end.

(** [audioProcessingThread] calls [audio.captureAudio()] without an
    argument: [duration_ms] is the default of the declaration, and the
    read on the blocking handle lasts as long as the frame it records. *)
Definition capture_ms : Z := 1000.

Section Clock.

Variable t : Orchestrator.task.

(** The time the [k]-th execution of the body takes besides the interval
    it passes to [sleep_for], in milliseconds: the blocking calls, the
    computation, the wait for the mutex and what the scheduler adds to the
    sleep. *)
Variable work : nat -> Z.

(** [g_low_power_mode] as the [k]-th execution of the body reads it. *)
Variable mode : nat -> bool.

(** The time at which [signalHandler] stores [false], the threads being
    started at time 0; [None] when the handler never runs. *)
Variable cleared : option Z.

(** [g_running] as read at time [now]. *)
Definition g_running (now : Z) : bool :=
  match cleared with
  | Some stop => now <? stop
  | None => true
  end.

(** The clock after the [k]-th execution of the body, begun at [now]. *)
Definition body (k : nat) (now : Z) : Z :=
  now + work k + sleep_interval t (mode k).

(** The thread function from its [k]-th test of the flag on, made at time
    [now]: [Some (n, end)] when it returns at time [end] after [n]
    executions of the body in all; [None] when it is still looping after
    [fuel] tests. *)
Fixpoint loop (fuel k : nat) (now : Z) : option (nat * Z) :=
  match fuel with
  | O => None
  | S fuel' =>
      if g_running now then loop fuel' (S k) (body k now)
      else Some (k, now)
  end.

(** The time of the [k]-th test of the flag. *)
Fixpoint start (k : nat) : Z :=
  match k with
  | O => 0
  | S k' => body k' (start k')
  end.

End Clock.

End Timed.

(** * The properties of the design document *)

(** Distinct sample texts: [utterance 7] is ["utterance 7"]. *)
Definition utterance (n : nat) : string :=
  ("utterance " ++ NilEmpty.string_of_uint (Nat.to_uint n))%string.

(** ** Bounded history and current text *)

(** C2. Whatever texts are appended, the history a reader can observe
    never holds more than 100 records; it is always the last 100 texts
    appended, in append order; an append to a full history drops the oldest
    record in the same critical section; and after 150 appends the history
    is appends 51 to 150 and the current text is the 150th. *)
Theorem C2_history_bounded_fifo (texts : list string) :
  (forall n,
     length (Shared.g_transcription_history (Shared.observe texts n)) <= 100) /\
  Shared.g_transcription_history (Shared.appends texts Shared.initial)
    = skipn (length texts - 100) texts /\
  (forall s text,
     length (Shared.g_transcription_history s) = 100 ->
     Shared.g_transcription_history (Shared.append text s)
       = tl (Shared.g_transcription_history s) ++ [text]) /\
  (length texts = 150 ->
     let final := Shared.appends texts Shared.initial in
     Shared.g_transcription_history final = skipn 50 texts /\
     length (Shared.g_transcription_history final) = 100 /\
     Shared.g_current_transcription final = nth 149 texts ""%string).
Proof.
  repeat split.
  - intros n. unfold Shared.observe.
    rewrite Shared.length_history_appends. lia.
  - apply Shared.history_appends.
  - intros s text Hfull. unfold Shared.append.
    cbn [Shared.g_transcription_history].
    rewrite length_app, Hfull. cbn [length Nat.add Nat.ltb Nat.leb].
    apply tl_app_nonempty. destruct (Shared.g_transcription_history s);
      [discriminate | congruence].
  - rewrite Shared.history_appends, H. reflexivity.
  - rewrite Shared.length_history_appends, H. reflexivity.
  - rewrite Shared.current_appends, last_nth_pred, H. reflexivity.
Qed.

(** The scenario of the design document on 150 distinct texts. *)
Lemma C2_scenario_150 :
  Shared.g_transcription_history
    (Shared.appends (map utterance (seq 1 150)) Shared.initial)
  = map utterance (seq 51 100).
Proof.
  destruct (C2_history_bounded_fifo (map utterance (seq 1 150)))
    as (_ & _ & _ & H).
  destruct (H eq_refl) as (Hhist & _).
  rewrite Hhist. reflexivity.
Defined.

(** C6. At every observation point the current text is the text of the
    last record appended so far, and the empty string before the first
    append; in terms of the capture loop, it is the last non-empty
    transcription result. *)
Theorem C6_current_is_last_append (texts : list string) (n : nat) :
  Shared.g_current_transcription (Shared.observe texts n)
    = last (firstn n texts) ""%string /\
  Shared.g_current_transcription Shared.initial = ""%string /\
  forall detect,
    Shared.g_current_transcription (Capture.run detect texts Shared.initial)
      = last (Capture.appended texts) ""%string.
Proof.
  split; [|split].
  - apply Shared.current_appends.
  - reflexivity.
  - intros detect. rewrite Capture.run_appends. apply Shared.current_appends.
Qed.

(** ** Persistence *)

(** The reading of the clock plays no role below. *)
Definition noon : nat -> string := fun _ => "2026-01-01 12:00:00"%string.

(** C1. The design document asks that every appended record be written to
    the store exactly once. [storageThread] compares the length of the
    history with the length of the snapshot it saved last; once it has
    saved a full history (100 records) the comparison never holds again.
    In the first run 100 records are appended and saved, a 101st is
    appended, and the body runs twice more: the 101st record is in the
    history and is never written. In the second run 101 records are
    appended before the body first runs: the first record is never
    written. *)
Theorem C1_full_history_is_never_saved_again :
  let first := map Persist.Append (map utterance (seq 1 100)) in
  let events :=
    first ++ [Persist.Cycle; Persist.Append (utterance 101);
              Persist.Cycle; Persist.Cycle] in
  let sys := Persist.exec noon events Persist.boot in
  let events' :=
    first ++ [Persist.Append (utterance 101); Persist.Cycle] in
  let sys' := Persist.exec noon events' Persist.boot in
  Persist.stream events = map utterance (seq 1 101) /\
  last (Shared.g_transcription_history (Persist.shared sys)) ""%string
    = utterance 101 /\
  Persist.written (Persist.calls sys) = map utterance (seq 1 100) /\
  Persist.stream events' = map utterance (seq 1 101) /\
  Persist.written (Persist.calls sys') = map utterance (seq 2 100).
Proof. vm_compute. repeat split. Qed.

Section PersistFacts.
Variable clock : nat -> string.

(** What holds of a run as long as no record has been evicted: the history
    is the whole stream, the saved snapshot is a prefix of it, and the
    texts written are that prefix. *)
Definition in_step (events : list Persist.event) (sys : Persist.system) : Prop :=
  Shared.g_transcription_history (Persist.shared sys) = Persist.stream events /\
  Persist.written (Persist.calls sys) = Persist.last_saved_transcriptions sys /\
  Persist.last_saved_transcriptions sys
    = firstn (length (Persist.last_saved_transcriptions sys))
             (Persist.stream events).

Lemma stream_prefix_length events e :
  length (Persist.stream events) <= length (Persist.stream (events ++ [e])).
Proof.
  destruct e; [rewrite Persist.stream_snoc_append, length_app
              | rewrite Persist.stream_snoc_cycle]; lia.
Qed.

Lemma history_is_stream events :
  length (Persist.stream events) <= 100 ->
  Shared.g_transcription_history (Persist.shared (Persist.exec clock events Persist.boot))
  = Persist.stream events.
Proof.
  intros Hlen. rewrite Persist.shared_exec, Shared.history_appends.
  replace (length (Persist.stream events) - 100) with 0 by lia. reflexivity.
Qed.

Lemma in_step_exec events :
  length (Persist.stream events) <= 100 ->
  in_step events (Persist.exec clock events Persist.boot).
Proof.
  induction events as [|e events IH] using rev_ind; intros Hlen.
  - repeat split.
  - pose proof (stream_prefix_length events e) as Hpre.
    destruct IH as (_ & Hw & Hs); [lia|].
    split; [now apply history_is_stream|].
    pose proof (history_is_stream events ltac:(lia)) as Hh.
    rewrite Persist.exec_snoc.
    set (sys := Persist.exec clock events Persist.boot) in *.
    assert (Hk : length (Persist.last_saved_transcriptions sys)
                 <= length (Persist.stream events)).
    { rewrite Hs at 1. rewrite length_firstn. lia. }
    destruct e as [txt|].
    + cbn [Persist.step Persist.calls Persist.last_saved_transcriptions].
      split; [exact Hw|].
      rewrite Persist.stream_snoc_append, firstn_app_le by exact Hk. exact Hs.
    + rewrite Persist.stream_snoc_cycle. cbn [Persist.step].
      unfold Persist.storageThread. rewrite Hh.
      destruct (Nat.ltb_spec (length (Persist.last_saved_transcriptions sys))
                             (length (Persist.stream events))) as [Hlt|Hge];
        cbn [Persist.calls Persist.last_saved_transcriptions].
      * rewrite Persist.written_save_all, Hw, firstn_all. split; [|reflexivity].
        rewrite Hs at 1. apply firstn_skipn.
      * split; assumption.
Qed.

End PersistFacts.

(** As long as at most 100 records have been appended since start-up, a
    run of the body of [storageThread] leaves every appended record
    written exactly once, in append order. *)
Theorem persist_exactly_once_within_bound (clock : nat -> string)
  (events : list Persist.event) :
  length (Persist.stream events) <= 100 ->
  Persist.written
    (Persist.calls (Persist.exec clock (events ++ [Persist.Cycle]) Persist.boot))
  = Persist.stream events.
Proof.
  intros Hlen.
  destruct (in_step_exec clock events Hlen) as (Hh & Hw & Hs).
  rewrite Persist.exec_snoc. cbn [Persist.step].
  unfold Persist.storageThread. rewrite Hh.
  set (sys := Persist.exec clock events Persist.boot) in *.
  destruct (Nat.ltb_spec (length (Persist.last_saved_transcriptions sys))
                         (length (Persist.stream events))) as [Hlt|Hge];
    cbn [Persist.calls].
  - rewrite Persist.written_save_all, Hw. rewrite Hs at 1. apply firstn_skipn.
  - rewrite Hw, Hs. now apply firstn_all2.
Qed.

Lemma persist_exactly_once_within_bound_example :
  Persist.written
    (Persist.calls
       (Persist.exec noon
          [Persist.Append "one"; Persist.Cycle; Persist.Append "two";
           Persist.Append "three"; Persist.Cycle] Persist.boot))
  = ["one"; "two"; "three"]%string.
Proof.
  apply (persist_exactly_once_within_bound noon
           [Persist.Append "one"; Persist.Cycle; Persist.Append "two";
            Persist.Append "three"]%string).
  cbn. lia.
Defined.

(** Running the body of [storageThread] again on the same snapshot writes
    nothing and leaves the saved snapshot as it is. *)
Theorem storageThread_idempotent (clock : nat -> string)
  (current_transcriptions : list string) (state : list string * list Persist.saved) :
  Persist.storageThread clock current_transcriptions
    (Persist.storageThread clock current_transcriptions state)
  = Persist.storageThread clock current_transcriptions state.
Proof.
  destruct state as [last calls]. unfold Persist.storageThread.
  destruct (length last <? length current_transcriptions) eqn:E.
  - now rewrite Nat.ltb_irrefl.
  - now rewrite E.
Qed.

(** The length of the saved snapshot, the watermark of the task, never
    decreases and never exceeds the number of records appended so far. *)
Theorem watermark_monotone_bounded (clock : nat -> string)
  (events : list Persist.event) (e : Persist.event) :
  let sys := Persist.exec clock events Persist.boot in
  length (Persist.last_saved_transcriptions sys)
    <= length (Persist.last_saved_transcriptions (Persist.step clock sys e)) /\
  length (Persist.last_saved_transcriptions sys)
    <= length (Shared.g_transcription_history (Persist.shared sys)) /\
  length (Shared.g_transcription_history (Persist.shared sys))
    <= length (Persist.stream events).
Proof.
  cbv zeta.
  assert (Hmono : forall sys e',
            length (Persist.last_saved_transcriptions sys)
            <= length (Persist.last_saved_transcriptions (Persist.step clock sys e'))).
  { intros sys [txt|]; cbn [Persist.step Persist.last_saved_transcriptions]; [lia|].
    unfold Persist.storageThread.
    destruct (Nat.ltb_spec (length (Persist.last_saved_transcriptions sys))
                (length (Shared.g_transcription_history (Persist.shared sys))));
      cbn [Persist.last_saved_transcriptions]; lia. }
  split; [apply Hmono|]. split.
  - induction events as [|e' events IH] using rev_ind; [cbn; lia|].
    rewrite Persist.exec_snoc.
    set (sys := Persist.exec clock events Persist.boot) in *.
    destruct e' as [txt|]; cbn [Persist.step].
    + cbn [Persist.last_saved_transcriptions Persist.shared].
      subst sys. rewrite Persist.shared_exec in *.
      rewrite <- Shared.appends_snoc, !Shared.length_history_appends in *.
      rewrite length_app. cbn [length]. lia.
    + unfold Persist.storageThread.
      destruct (Nat.ltb_spec (length (Persist.last_saved_transcriptions sys))
                  (length (Shared.g_transcription_history (Persist.shared sys))));
        cbn [Persist.last_saved_transcriptions Persist.shared]; lia.
  - rewrite Persist.shared_exec, Shared.length_history_appends. lia.
Qed.

(** Once the body of [storageThread] has saved a snapshot of 100 records,
    no later execution writes anything, whatever is appended. *)
Theorem persist_silent_after_full_save (clock : nat -> string)
  (events : list Persist.event) (sys : Persist.system) :
  length (Persist.last_saved_transcriptions sys) = 100 ->
  length (Shared.g_transcription_history (Persist.shared sys)) <= 100 ->
  Persist.calls (Persist.exec clock events sys) = Persist.calls sys.
Proof.
  revert sys. induction events as [|e events IH]; intros sys Hfull Hhist;
    [reflexivity|].
  change (Persist.exec clock (e :: events) sys)
    with (Persist.exec clock events (Persist.step clock sys e)).
  destruct e as [txt|]; cbn [Persist.step].
  - rewrite IH; [reflexivity | exact Hfull |].
    cbn [Persist.shared]. unfold Shared.append.
    cbn [Shared.g_transcription_history].
    destruct (Nat.ltb_spec 100
                (length (Shared.g_transcription_history (Persist.shared sys) ++ [txt])))
      as [Hgt|Hle]; [|exact Hle].
    rewrite length_app in Hgt. cbn [length] in Hgt.
    destruct (Shared.g_transcription_history (Persist.shared sys)) as [|x h];
      cbn [tl length app] in *; [lia|]. rewrite length_app. cbn [length]. lia.
  - unfold Persist.storageThread.
    replace (length (Persist.last_saved_transcriptions sys)
             <? length (Shared.g_transcription_history (Persist.shared sys)))
      with false by (symmetry; apply Nat.ltb_ge; lia).
    now rewrite IH.
Qed.

Lemma persist_silent_after_full_save_example :
  let full :=
    Persist.exec noon
      (map Persist.Append (map utterance (seq 1 100)) ++ [Persist.Cycle])
      Persist.boot in
  Persist.calls
    (Persist.exec noon
       [Persist.Append "one more"; Persist.Cycle; Persist.Cycle] full)
  = Persist.calls full.
Proof.
  intros full.
  apply (persist_silent_after_full_save noon
           [Persist.Append "one more"; Persist.Cycle; Persist.Cycle]%string full).
  - vm_compute. reflexivity.
  - vm_compute. repeat constructor.
Defined.

(** ** Connectivity *)

(** C3, as the design document states it, fails: the persistence task has
    saved one record, the transport is enabled and connected, the upload
    delivers nothing, and the record is marked as synced all the same. *)
Lemma C3_undelivered_record_is_marked :
  let st := Storage.saveTranscription "2026-01-01 12:00:00" "hello" [] in
  let e := Connectivity.connectivityThread (Connectivity.mkLinks false true true)
             false ["hello"%string] st in
  ~ Connectivity.marks_only_delivered (fun _ => false) st
      (Connectivity.store_after e).
Proof.
  cbn. intros H. inversion H as [|r r' l l' Hr _]; subst.
  specialize (Hr eq_refl eq_refl). discriminate.
Qed.

(** C3, amended. Whatever the storage manager is: when the long-range
    transport is enabled and connected, the body hands the unsynced records
    of the store to the upload and then calls [markTranscriptionsAsSynced],
    whatever the upload achieved; when the transport is disabled or
    disconnected nothing is uploaded and the store is untouched. With the
    store of the design document the first case leaves every record synced
    and its text unchanged: nothing is left to retry. *)
Theorem C3_backup_then_mark_all (l : Connectivity.links) (low_power : bool)
  (history : list string) :
  (forall (store batch : Type) (SM : Storage.Manager store batch) (st : store),
     let e := Connectivity.connectivityThread l low_power history st in
     (Connectivity.wifi_isEnabled l && Connectivity.wifi_isConnected l = true ->
        Connectivity.wifi_backup e = Some (Storage.getUnsyncedTranscriptions st) /\
        Connectivity.store_after e = Storage.markTranscriptionsAsSynced st) /\
     (Connectivity.wifi_isEnabled l && Connectivity.wifi_isConnected l = false ->
        Connectivity.wifi_backup e = None /\ Connectivity.store_after e = st)) /\
  (forall st : list Storage.record,
     let e := Connectivity.connectivityThread l low_power history st in
     Connectivity.wifi_isEnabled l && Connectivity.wifi_isConnected l = true ->
     Forall (fun r => Storage.synced r = true) (Connectivity.store_after e) /\
     map Storage.text (Connectivity.store_after e) = map Storage.text st /\
     Storage.unsynced (Connectivity.store_after e) = []).
Proof.
  split.
  - intros store batch SM st. unfold Connectivity.connectivityThread.
    destruct (Connectivity.wifi_isEnabled l && Connectivity.wifi_isConnected l);
      cbn [Connectivity.wifi_backup Connectivity.store_after];
      split; try discriminate; intros _; split; reflexivity.
  - intros st e Hup. subst e.
    unfold Connectivity.connectivityThread. rewrite Hup.
    cbn [Connectivity.store_after Storage.markTranscriptionsAsSynced
         Storage.durable].
    auto using Storage.mark_all_synced, Storage.mark_all_texts,
               Storage.unsynced_mark_all.
Qed.

(** The body with the transport up, on a store with one synced and one
    unsynced record. *)
Lemma C3_backup_then_mark_all_example :
  let st := [Storage.mkRecord "2026-01-01 12:00:00" "good morning" true;
             Storage.mkRecord "2026-01-01 12:00:05" "hello" false] in
  let e := Connectivity.connectivityThread (Connectivity.mkLinks true true true)
             true ["good morning"; "hello"]%string st in
  Connectivity.wifi_backup e
    = Some [Storage.mkRecord "2026-01-01 12:00:05" "hello" false] /\
  Storage.unsynced (Connectivity.store_after e) = [].
Proof.
  intros st e.
  destruct (C3_backup_then_mark_all (Connectivity.mkLinks true true true) true
              ["good morning"; "hello"]%string) as [Hany Hdoc].
  cbv zeta in Hany, Hdoc.
  destruct (Hany _ _ Storage.durable st) as [Hup _].
  destruct (Hup eq_refl) as [Hb _].
  destruct (Hdoc st eq_refl) as (_ & _ & Hu).
  split; [exact Hb | exact Hu].
Defined.

(** ** The capture pipeline *)

(** The object [main] works with: [SpeechToText stt("whisper")] once the
    model file has loaded. *)
Definition whisper_stt : Stt.SpeechToText := Stt.mkStt Stt.WHISPER "en" (Some 0).

(** The texts [transcribe] returns when it has no transcript. *)
Definition diagnostics : list string :=
  ["Whisper model not initialized"; "Failed to run Whisper inference";
   "Vosk transcription not implemented";
   "DeepSpeech transcription not implemented"]%string.

(** C4, as the design document states it, fails in its second half: when
    [whisper_full] reports an error the loop body appends a record, whose
    text is the message ["Failed to run Whisper inference"], and makes it
    the current text. *)
Lemma C4_failed_inference_is_appended :
  let w := Stt.mkCall (-1) [] in
  let after := fst (Capture.audioProcessingThread (fun _ => false) whisper_stt w Shared.initial) in
  Stt.construct "whisper" (Some 0) = Some whisper_stt /\
  Stt.transcription_failed whisper_stt w = true /\
  after <> Shared.initial /\
  Shared.g_transcription_history after
    = ["Failed to run Whisper inference"%string] /\
  Shared.g_current_transcription after
    = "Failed to run Whisper inference"%string.
Proof. cbn. repeat split. discriminate. Qed.

(** C4, amended. An iteration whose transcription is the empty string
    leaves the shared state as it was and triggers nothing. A transcription
    that fails does not stop the loop either, but [transcribe] then returns
    one of four fixed non-empty messages, which the iteration appends and
    publishes like any text. A transcription that succeeds returns the
    segment texts, each followed by a space. In every case the loop goes on
    with the results that follow. *)
Theorem C4_empty_is_noop_failure_is_text (detect : string -> bool)
  (o : Stt.SpeechToText) (w : Stt.whisper_call) (s : Shared.state) :
  (Stt.transcribe o w = ""%string -> Capture.audioProcessingThread detect o w s = (s, false)) /\
  (Stt.transcription_failed o w = true ->
     In (Stt.transcribe o w) diagnostics /\
     fst (Capture.audioProcessingThread detect o w s)
       = Shared.append (Stt.transcribe o w) s) /\
  (Stt.transcription_failed o w = false ->
     Stt.transcribe o w
       = fold_left (fun result seg => (result ++ seg ++ " ")%string)
                   (Stt.segment_text w) ""%string) /\
  (forall later,
     Capture.run detect (Stt.transcribe o w :: later) s
     = Capture.run detect later (fst (Capture.audioProcessingThread detect o w s))).
Proof.
  unfold Capture.audioProcessingThread, Capture.publish.
  split; [|split; [|split; [|reflexivity]]].
  - intros ->. reflexivity.
  - unfold Stt.transcription_failed, Stt.transcribe, Stt.transcribeWithWhisper,
      diagnostics.
    destruct (Stt.engine o); [destruct (Stt.engine_handle o)|..];
      intros H; try rewrite H; cbn; auto 6.
  - unfold Stt.transcription_failed, Stt.transcribe, Stt.transcribeWithWhisper.
    destruct (Stt.engine o); [destruct (Stt.engine_handle o)|..];
      intros H; try discriminate. now rewrite H.
Qed.

(** The three cases on the object of [main]: silence, two segments, a
    failed inference. *)
Lemma C4_empty_is_noop_failure_is_text_example :
  let s := Shared.appends ["good morning"%string] Shared.initial in
  Capture.audioProcessingThread (fun _ => true) whisper_stt (Stt.mkCall 0 []) s = (s, false) /\
  Stt.transcribe whisper_stt (Stt.mkCall 0 [" call"; " for help"]%string)
    = " call  for help "%string /\
  fst (Capture.audioProcessingThread (fun _ => true) whisper_stt (Stt.mkCall 7 []) s)
    = Shared.append "Failed to run Whisper inference" s.
Proof.
  intros s. split; [|split].
  - apply (C4_empty_is_noop_failure_is_text (fun _ => true) whisper_stt
             (Stt.mkCall 0 []) s). reflexivity.
  - apply (C4_empty_is_noop_failure_is_text (fun _ => true) whisper_stt
             (Stt.mkCall 0 [" call"; " for help"]%string) s). reflexivity.
  - apply (C4_empty_is_noop_failure_is_text (fun _ => true) whisper_stt
             (Stt.mkCall 7 []) s). reflexivity.
Defined.

(** ** Engine selection *)

(** Two characters that differ at most by the case of an ASCII letter:
    they are equal, or one is an upper-case letter and the other is the
    character 32 places above it. *)
Inductive same_letter : ascii -> ascii -> Prop :=
| same_char c : same_letter c c
| upper_lower c d :
    Stt.isupper c = true -> nat_of_ascii d = nat_of_ascii c + 32 ->
    same_letter c d
| lower_upper c d :
    Stt.isupper d = true -> nat_of_ascii c = nat_of_ascii d + 32 ->
    same_letter c d.

(** Case-insensitive equality of two strings: same length, and the same
    letter at every position. *)
Inductive equal_ignoring_case : string -> string -> Prop :=
| eic_empty : equal_ignoring_case "" ""
| eic_char c d s t :
    same_letter c d -> equal_ignoring_case s t ->
    equal_ignoring_case (String c s) (String d t).

Lemma isupper_bounds c :
  Stt.isupper c = true <-> 65 <= nat_of_ascii c <= 90.
Proof.
  unfold Stt.isupper. rewrite andb_true_iff, !Nat.leb_le. tauto.
Qed.

Lemma nat_of_tolower_upper c :
  Stt.isupper c = true ->
  nat_of_ascii (Stt.tolower c) = nat_of_ascii c + 32.
Proof.
  intros H. unfold Stt.tolower. rewrite H.
  apply isupper_bounds in H. apply nat_ascii_embedding. lia.
Qed.

Lemma tolower_not_upper c : Stt.isupper c = false -> Stt.tolower c = c.
Proof. intros H. unfold Stt.tolower. now rewrite H. Qed.

Lemma nat_of_ascii_inj c d : nat_of_ascii c = nat_of_ascii d -> c = d.
Proof.
  intros H. rewrite <- (ascii_nat_embedding c), <- (ascii_nat_embedding d).
  now rewrite H.
Qed.

Lemma tolower_eq_iff c d :
  Stt.tolower c = Stt.tolower d <-> same_letter c d.
Proof.
  split.
  - intros H. apply (f_equal nat_of_ascii) in H.
    destruct (Stt.isupper c) eqn:Hc, (Stt.isupper d) eqn:Hd.
    + rewrite !nat_of_tolower_upper in H by assumption.
      replace d with c by (apply nat_of_ascii_inj; lia). constructor.
    + rewrite nat_of_tolower_upper, (tolower_not_upper d) in H by assumption.
      now apply upper_lower.
    + rewrite (tolower_not_upper c), nat_of_tolower_upper in H by assumption.
      now apply lower_upper.
    + rewrite !tolower_not_upper in H by assumption.
      apply nat_of_ascii_inj in H. subst. constructor.
  - intros [c0|c0 d0 Hc Hn|c0 d0 Hd Hn]; [reflexivity| |];
      apply nat_of_ascii_inj.
    + rewrite nat_of_tolower_upper, tolower_not_upper by
        (try assumption; apply isupper_bounds in Hc;
         apply not_true_is_false; rewrite isupper_bounds; lia).
      lia.
    + rewrite (nat_of_tolower_upper d0), tolower_not_upper by
        (try assumption; apply isupper_bounds in Hd;
         apply not_true_is_false; rewrite isupper_bounds; lia).
      lia.
Qed.

Lemma transform_tolower_eq_iff s t :
  Stt.transform Stt.tolower s = Stt.transform Stt.tolower t
  <-> equal_ignoring_case s t.
Proof.
  split.
  - revert t; induction s as [|c s IH]; intros [|d t] H; try discriminate.
    + constructor.
    + cbn in H. injection H as Hc Hs. constructor.
      * now apply tolower_eq_iff.
      * now apply IH.
  - induction 1 as [|c d s t Hc _ IH]; [reflexivity|].
    cbn. f_equal; [now apply tolower_eq_iff | exact IH].
Qed.

(** Comparison of the lowered name with a literal that is already lower
    case. *)
Lemma lowered_eqb_iff name literal :
  Stt.transform Stt.tolower literal = literal ->
  String.eqb (Stt.transform Stt.tolower name) literal = true
  <-> equal_ignoring_case name literal.
Proof.
  intros Hlit. rewrite String.eqb_eq, <- transform_tolower_eq_iff, Hlit. tauto.
Qed.

(** C10. [setEngine] never fails. It selects Whisper, Vosk or DeepSpeech
    when the name equals "whisper", "vosk" or "deepspeech" up to the case
    of its letters, and Whisper, with a message on [std::cerr], for every
    other name; language and handle are left as they were. *)
Theorem C10_setEngine_case_insensitive (engine_name : string)
  (o : Stt.SpeechToText) :
  let o' := fst (Stt.setEngine engine_name o) in
  (Stt.engine o' = Stt.VOSK <-> equal_ignoring_case engine_name "vosk") /\
  (Stt.engine o' = Stt.DEEPSPEECH
     <-> equal_ignoring_case engine_name "deepspeech") /\
  (Stt.engine o' = Stt.WHISPER
     <-> ~ equal_ignoring_case engine_name "vosk" /\
         ~ equal_ignoring_case engine_name "deepspeech") /\
  (equal_ignoring_case engine_name "whisper" ->
     Stt.setEngine engine_name o
       = (Stt.mkStt Stt.WHISPER (Stt.language o) (Stt.engine_handle o), [])) /\
  (~ equal_ignoring_case engine_name "whisper" ->
   ~ equal_ignoring_case engine_name "vosk" ->
   ~ equal_ignoring_case engine_name "deepspeech" ->
     Stt.setEngine engine_name o
       = (Stt.mkStt Stt.WHISPER (Stt.language o) (Stt.engine_handle o),
          [("Unknown engine: " ++ engine_name
            ++ ". Defaulting to Whisper.")%string])) /\
  Stt.language o' = Stt.language o /\
  Stt.engine_handle o' = Stt.engine_handle o.
Proof.
  pose proof (lowered_eqb_iff engine_name "whisper" eq_refl) as Hw.
  pose proof (lowered_eqb_iff engine_name "vosk" eq_refl) as Hv.
  pose proof (lowered_eqb_iff engine_name "deepspeech" eq_refl) as Hd.
  unfold Stt.setEngine.
  destruct (String.eqb (Stt.transform Stt.tolower engine_name) "whisper") eqn:Ew;
  destruct (String.eqb (Stt.transform Stt.tolower engine_name) "vosk") eqn:Ev;
  destruct (String.eqb (Stt.transform Stt.tolower engine_name) "deepspeech") eqn:Ed;
  try (apply String.eqb_eq in Ew; apply String.eqb_eq in Ev; congruence);
  try (apply String.eqb_eq in Ew; apply String.eqb_eq in Ed; congruence);
  try (apply String.eqb_eq in Ev; apply String.eqb_eq in Ed; congruence);
  cbn [fst Stt.engine Stt.language Stt.engine_handle];
  repeat split; try tauto; try discriminate; try reflexivity;
  intuition (try discriminate; try congruence).
Qed.

(** The selection on two spellings. *)
Lemma C10_setEngine_case_insensitive_example :
  Stt.engine (fst (Stt.setEngine "VoSk" whisper_stt)) = Stt.VOSK /\
  Stt.setEngine "Whisper" whisper_stt = (whisper_stt, []).
Proof.
  split.
  - apply (C10_setEngine_case_insensitive "VoSk" whisper_stt).
    repeat constructor.
  - apply (C10_setEngine_case_insensitive "Whisper" whisper_stt).
    repeat constructor.
Defined.

(** ** Power mode *)

(** The binary32 values nearest to 0.25, 0.15 and 0.35, as a [float]
    variable holds them. *)
Definition level_25 : float := 0x1p-2%float.
Definition level_15 : float := 0x1.333334p-3%float.
Definition level_35 : float := 0x1.666666p-2%float.

(** C5. After any trace of battery levels, the next sample moves the mode
    from Normal to Low exactly when it is below 0.20 and from Low to Normal
    exactly when it is above 0.30; a sample inside the band [0.20, 0.30]
    leaves the mode as it is; the mode published for the sample is that
    mode. Starting Normal, the levels 0.25, 0.15, 0.35 publish Normal, Low,
    Normal. *)
Theorem C5_power_mode_hysteresis (trace : list float) (battery_level : float) :
  let before := Power.mode_after trace in
  let after := Power.mode_after (trace ++ [battery_level]) in
  (before = Power.Normal ->
     (after = Power.Low <-> (battery_level <? Power.low_threshold)%float = true)) /\
  (before = Power.Low ->
     (after = Power.Normal
        <-> (Power.high_threshold <? battery_level)%float = true)) /\
  ((Power.low_threshold <=? battery_level)%float = true ->
   (battery_level <=? Power.high_threshold)%float = true ->
   after = before) /\
  last (Power.published Power.Normal (trace ++ [battery_level])) Power.Normal
    = after /\
  Power.published Power.Normal [level_25; level_15; level_35]
    = [Power.Normal; Power.Low; Power.Normal].
Proof.
  cbv zeta. unfold Power.mode_after.
  rewrite Power.published_snoc, last_snoc, fold_left_snoc.
  generalize (fold_left Power.powerManagementThread trace Power.Normal) as mode.
  intros mode. unfold Power.powerManagementThread, Power.Normal, Power.Low.
  repeat split.
  - destruct (battery_level <? Power.low_threshold)%float; [reflexivity|].
    subst mode. destruct (Power.high_threshold <? battery_level)%float;
      discriminate.
  - intros ->. reflexivity.
  - destruct (battery_level <? Power.low_threshold)%float; [discriminate|].
    subst mode. destruct (Power.high_threshold <? battery_level)%float;
      [reflexivity | discriminate].
  - intros Habove.
    rewrite (Power.above_high_not_below_low _ Habove), Habove. reflexivity.
  - intros Hlow Hhigh.
    now rewrite (Power.at_least_low_not_below _ Hlow),
                (Power.at_most_high_not_above _ Hhigh).
Qed.

(** The trace of the design document, sample by sample. *)
Lemma C5_power_mode_hysteresis_example :
  Power.mode_after [level_25] = Power.Normal /\
  Power.mode_after [level_25; level_15] = Power.Low /\
  Power.mode_after [level_25; level_15; level_35] = Power.Normal.
Proof.
  split; [|split].
  - apply (C5_power_mode_hysteresis [] level_25); reflexivity.
  - apply (C5_power_mode_hysteresis [level_25] level_15); reflexivity.
  - apply (C5_power_mode_hysteresis [level_25; level_15] level_35); reflexivity.
Defined.

(** The binary32 values next to the two thresholds: the largest below and
    the smallest above 2/10 and 3/10. Comparing them with the [double]
    literals gives what comparing with 2/10 and 3/10 would. *)
Example binary32_neighbours_of_thresholds :
  (0x1.999998p-3 <? Power.low_threshold)%float = true /\
  (0x1.99999ap-3 <? Power.low_threshold)%float = false /\
  (Power.high_threshold <? 0x1.333332p-2)%float = false /\
  (Power.high_threshold <? 0x1.333334p-2)%float = true.
Proof. repeat split. Qed.

(** ** Text wrapping *)

(** C7, as the design document states it, fails in its second part: a word
    of 34 characters is laid out as one line of 34 characters. *)
Lemma C7_long_word_overflows :
  Display.showText "supercalifragilisticexpialidocious"
    = ["supercalifragilisticexpialidocious"%string] /\
  ~ Forall (fun line => String.length line <= Display.chars_per_line)
      (Display.showText "supercalifragilisticexpialidocious").
Proof.
  split; [reflexivity|].
  intros H. inversion H as [|line lines Hline _]; subst.
  cbn in Hline. unfold Display.chars_per_line in Hline. lia.
Qed.

(** C7, amended. For every text, [wrapText] on an empty vector yields at
    most 8 lines; they are the first 8 lines of the layout, the others are
    dropped; and every line has at most 21 characters unless it is a single
    word of the text that is itself longer than 21 characters, which is
    never split. *)
Theorem C7_wrapText_bounds (text : string) :
  length (Display.showText text) <= 8 /\
  Display.showText text = firstn 8 (Display.layout text []) /\
  Forall (Display.fits_or_long_word text) (Display.showText text) /\
  (Forall (fun word => String.length word <= Display.chars_per_line)
          (Display.words text) ->
   Forall (fun line => String.length line <= Display.chars_per_line)
          (Display.showText text)).
Proof.
  unfold Display.showText. rewrite Display.wrapText_firstn.
  assert (Hfirst : forall P : string -> Prop,
             Forall P (Display.layout text []) ->
             Forall P (firstn 8 (Display.layout text []))).
  { intros P H. rewrite Forall_forall in *. intros line Hin.
    apply H. rewrite <- (firstn_skipn 8). apply in_or_app. now left. }
  repeat split.
  - apply firstn_le_length.
  - apply Hfirst, Display.layout_lines.
  - intros Hwords. apply Hfirst.
    pose proof (Display.layout_lines text) as H.
    rewrite Forall_forall in *. intros line Hin.
    destruct (H line Hin) as [Hfit|[Hword Hlong]]; [exact Hfit|].
    specialize (Hwords line Hword). lia.
Qed.

(** A sentence of ordinary words: three lines, none longer than 21. *)
Lemma C7_wrapText_bounds_example :
  Forall (fun line => String.length line <= Display.chars_per_line)
    (Display.showText "please call  for help at the main entrance now").
Proof.
  apply (C7_wrapText_bounds "please call  for help at the main entrance now").
  vm_compute. repeat constructor.
Defined.

(** ** Start-up and shutdown *)

(** A device on which every collaborator initialises. *)
Definition healthy : Orchestrator.startup :=
  Orchestrator.mkStartup true true true true true true true (Some 0) true true.

(** The same device without the Whisper model file. *)
Definition no_model : Orchestrator.startup :=
  Orchestrator.mkStartup true true true true true true true None true true.

Definition all_tasks : list Orchestrator.task :=
  [Orchestrator.audio_thread; Orchestrator.display_thread;
   Orchestrator.storage_thread; Orchestrator.power_thread;
   Orchestrator.connectivity_thread].

(** A quiet room: Whisper hears one segment per frame, the battery is at
    one half and no link is up. *)
Definition quiet_room : Orchestrator.environment :=
  Orchestrator.mkEnvironment
    (fun _ => Stt.mkCall 0 [" hello"%string])
    (fun _ => false)
    (fun _ => "2024-01-01 00:00:00"%string)
    (fun _ => 0.5%float)
    (fun _ => Connectivity.mkLinks false false false).

Section ProcessFacts.

Import Orchestrator.

Variable env : environment.
Variable stt : Stt.SpeechToText.

Lemma run_snoc schedule e p :
  run env stt (schedule ++ [e]) p = step env stt (run env stt schedule p) e.
Proof. unfold run. apply fold_left_snoc. Qed.

Lemma run_app schedule1 schedule2 p :
  run env stt (schedule1 ++ schedule2) p
  = run env stt schedule2 (run env stt schedule1 p).
Proof. unfold run. apply fold_left_app. Qed.

Lemma join_all_join p : join_all p = true -> forall t, join t p = true.
Proof.
  unfold join_all. rewrite !andb_true_iff.
  intros ((((Ha & Hd) & Hs) & Hp) & Hc) [| | | |]; assumption.
Qed.

Lemma join_all_of_joins p : (forall t, join t p = true) -> join_all p = true.
Proof. intros H. unfold join_all. now rewrite !H. Qed.

Lemma task_eqb_refl t : task_eqb t t = true.
Proof. now destruct t. Qed.

Lemma task_eqb_eq t t' : task_eqb t t' = true <-> t = t'.
Proof. destruct t, t'; cbn; split; congruence. Qed.

(** A thread function that has returned stays returned. *)
Lemma join_step t p e : join t p = true -> join t (step env stt p e) = true.
Proof.
  intros Hj. unfold step. destruct (finished p); [exact Hj|].
  destruct e as [sig|t'].
  - destruct (handled sig); exact Hj.
  - destruct (join t' p); [exact Hj|].
    destruct (g_running p); [exact Hj|].
    unfold join. cbn [returned]. rewrite existsb_app.
    unfold join in Hj. now rewrite Hj.
Qed.

Lemma join_run t schedule : forall p,
  join t p = true -> join t (run env stt schedule p) = true.
Proof.
  induction schedule as [|e schedule IH]; intros p Hj; [exact Hj|].
  apply IH, join_step, Hj.
Qed.

(** The flag is cleared and the process alive. *)
Definition stopping (p : process) : Prop :=
  g_running p = false /\ killed p = None.

Lemma stopping_step p e :
  stopping p -> e <> Deliver SIGTERM -> stopping (step env stt p e).
Proof.
  intros [Hr Hk] He. unfold step. destruct (finished p); [now split|].
  destruct e as [[|]|t']; cbn [handled]; try congruence.
  - now split.
  - destruct (join t' p); [now split|]. rewrite Hr. now split.
Qed.

(** Once the flag is cleared, a thread returns at its next turn. *)
Lemma stopping_turn p t : stopping p -> join t (step env stt p (Turn t)) = true.
Proof.
  intros [Hr Hk]. unfold step, finished. rewrite Hk.
  destruct (join_all p) eqn:Hall; [now apply join_all_join|].
  destruct (join t p) eqn:Hj; [exact Hj|]. rewrite Hr.
  unfold join. cbn [returned]. rewrite existsb_app. cbn [existsb].
  now rewrite task_eqb_refl, orb_true_r.
Qed.

Lemma stopping_run t schedule : forall p,
  stopping p -> ~ In (Deliver SIGTERM) schedule -> In (Turn t) schedule ->
  join t (run env stt schedule p) = true.
Proof.
  induction schedule as [|e schedule IH]; intros p Hs Hterm Hin; [destruct Hin|].
  cbn [run fold_left]. destruct Hin as [->|Hin].
  - apply (join_run t schedule). now apply stopping_turn.
  - apply IH; [|intros H; apply Hterm; now right|exact Hin].
    apply stopping_step; [exact Hs|]. intros ->. apply Hterm. now left.
Qed.

Lemma killed_run schedule : forall p,
  killed p = None -> ~ In (Deliver SIGTERM) schedule ->
  killed (run env stt schedule p) = None.
Proof.
  induction schedule as [|e schedule IH]; intros p Hk Hterm; [exact Hk|].
  cbn [run fold_left]. apply IH; [|intros H; apply Hterm; now right].
  unfold step. destruct (finished p); [exact Hk|].
  destruct e as [[|]|t']; cbn [handled]; [exact Hk| |].
  - exfalso. apply Hterm. now left.
  - destruct (join t' p); [exact Hk|]. now destruct (g_running p).
Qed.

(** The interrupt leaves the process stopping, or finished already. *)
Lemma interrupt_stops p :
  killed p = None ->
  stopping (step env stt p (Deliver SIGINT))
  \/ join_all (step env stt p (Deliver SIGINT)) = true.
Proof.
  intros Hk. unfold step, finished. rewrite Hk.
  destruct (join_all p) eqn:Hall; [now right|]. left. now split.
Qed.

(** Without an interrupt no thread function returns. *)
Definition looping (p : process) : Prop :=
  g_running p = true /\ returned p = [].

Lemma looping_run schedule : forall p,
  looping p -> ~ In (Deliver SIGINT) schedule ->
  looping (run env stt schedule p).
Proof.
  induction schedule as [|e schedule IH]; intros p [Hr Hn] Hint; [now split|].
  cbn [run fold_left]. apply IH; [|intros H; apply Hint; now right].
  unfold step. destruct (finished p); [now split|].
  destruct e as [[|]|t']; cbn [handled].
  - exfalso. apply Hint. now left.
  - now split.
  - destruct (join t' p); [now split|]. rewrite Hr. now split.
Qed.

End ProcessFacts.

(** C8, as the design document states it, fails for the termination
    signal: [main] installs a handler for [SIGINT] only, so after a normal
    start-up [SIGTERM] kills the process, whatever turns the threads get
    afterwards, and [main] returns no code. *)
Lemma C8_sigterm_is_not_handled :
  let schedule :=
    Orchestrator.Turn Orchestrator.audio_thread
    :: Orchestrator.Deliver Orchestrator.SIGTERM
    :: map Orchestrator.Turn all_tasks in
  Orchestrator.all_initialise healthy = true /\
  Orchestrator.result (Orchestrator.main healthy quiet_room schedule)
    = Orchestrator.Killed Orchestrator.SIGTERM /\
  Orchestrator.result (Orchestrator.main healthy quiet_room schedule)
    <> Orchestrator.Exit 0.
Proof. repeat split. discriminate. Qed.

(** C8, amended. After a start-up in which every collaborator initialises,
    the five tasks are started and the process exits with code 0 when it
    receives the interrupt signal, the one signal [main] handles: every
    thread function returns at its next test of [g_running] and [main]
    gets past its five [join]s. Without the interrupt no thread function
    returns and [main] never returns 0. When a collaborator fails to
    initialise, the process exits with code 1 and no task is started,
    whatever happens afterwards; it exits with code 1 in no other case. *)
Theorem C8_exit_codes (hw : Orchestrator.startup)
  (env : Orchestrator.environment) :
  (forall sig, Orchestrator.handled sig = true <-> sig = Orchestrator.SIGINT) /\
  (Orchestrator.all_initialise hw = true ->
     (forall before after,
        ~ In (Orchestrator.Deliver Orchestrator.SIGTERM) (before ++ after) ->
        (forall t, In (Orchestrator.Turn t) after) ->
        Orchestrator.main hw env
          (before ++ Orchestrator.Deliver Orchestrator.SIGINT :: after)
        = Orchestrator.mkExecution all_tasks (Orchestrator.Exit 0)) /\
     (forall schedule,
        Orchestrator.result (Orchestrator.main hw env schedule)
          = Orchestrator.Exit 0 ->
        In (Orchestrator.Deliver Orchestrator.SIGINT) schedule) /\
     (forall schedule,
        Orchestrator.started (Orchestrator.main hw env schedule) = all_tasks /\
        Orchestrator.result (Orchestrator.main hw env schedule)
          <> Orchestrator.Exit 1)) /\
  (Orchestrator.all_initialise hw = false ->
     forall schedule,
       Orchestrator.main hw env schedule
         = Orchestrator.mkExecution [] (Orchestrator.Exit 1)).
Proof.
  split; [|split].
  - intros [|]; cbn; split; congruence.
  - intros Hok. rewrite <- Orchestrator.construct_all_spec in Hok.
    unfold Orchestrator.main.
    destruct (Orchestrator.construct_all hw) as [stt|]; [|discriminate].
    split; [|split].
    + intros before after Hterm Hturns. unfold all_tasks. f_equal.
      change (before ++ Orchestrator.Deliver Orchestrator.SIGINT :: after)
        with (before ++ [Orchestrator.Deliver Orchestrator.SIGINT] ++ after).
      rewrite !run_app.
      set (p := Orchestrator.run env stt before Orchestrator.boot).
      assert (Hk : Orchestrator.killed p = None).
      { apply killed_run; [reflexivity|].
        intros H. apply Hterm, in_or_app. now left. }
      assert (Hafter : ~ In (Orchestrator.Deliver Orchestrator.SIGTERM) after).
      { intros H. apply Hterm, in_or_app. now right. }
      change (Orchestrator.run env stt [Orchestrator.Deliver Orchestrator.SIGINT] p)
        with (Orchestrator.step env stt p (Orchestrator.Deliver Orchestrator.SIGINT)).
      set (q := Orchestrator.step env stt p _).
      assert (Hq : Orchestrator.killed q = None).
      { apply (killed_run env stt [Orchestrator.Deliver Orchestrator.SIGINT] p Hk).
        intros [H|[]]; discriminate. }
      unfold Orchestrator.ending_of.
      rewrite (killed_run env stt after q Hq Hafter).
      rewrite join_all_of_joins; [reflexivity|]. intros t.
      destruct (interrupt_stops env stt p Hk) as [Hs|Hall].
      * apply stopping_run; auto.
      * apply join_run. now apply join_all_join.
    + intros schedule Hexit.
      destruct (in_dec (fun a b : Orchestrator.event =>
                          ltac:(decide equality; decide equality))
                       (Orchestrator.Deliver Orchestrator.SIGINT) schedule)
        as [Hin|Hnot]; [exact Hin|].
      exfalso.
      destruct (looping_run env stt schedule Orchestrator.boot
                  (conj eq_refl eq_refl) Hnot) as [_ Hnone].
      cbn [Orchestrator.result] in Hexit. unfold Orchestrator.ending_of in Hexit.
      destruct (Orchestrator.killed _); [discriminate|].
      unfold Orchestrator.join_all, Orchestrator.join in Hexit.
      rewrite Hnone in Hexit. discriminate.
    + intros schedule. split; [reflexivity|].
      cbn [Orchestrator.result]. unfold Orchestrator.ending_of.
      destruct (Orchestrator.killed _); [discriminate|].
      destruct (Orchestrator.join_all _); discriminate.
  - intros Hko schedule. rewrite <- Orchestrator.construct_all_spec in Hko.
    unfold Orchestrator.main.
    destruct (Orchestrator.construct_all hw); [discriminate | reflexivity].
Qed.

(** Both exits: the healthy device interrupted after two bodies, each
    thread then getting a turn, and the device without its model file. *)
Lemma C8_exit_codes_example :
  Orchestrator.main healthy quiet_room
    ([Orchestrator.Turn Orchestrator.audio_thread;
      Orchestrator.Turn Orchestrator.display_thread]
     ++ Orchestrator.Deliver Orchestrator.SIGINT
        :: map Orchestrator.Turn all_tasks)
    = Orchestrator.mkExecution all_tasks (Orchestrator.Exit 0) /\
  Orchestrator.main no_model quiet_room
    [Orchestrator.Deliver Orchestrator.SIGINT]
    = Orchestrator.mkExecution [] (Orchestrator.Exit 1).
Proof.
  split.
  - apply (C8_exit_codes healthy quiet_room); [reflexivity| |].
    + cbn. intros H. repeat destruct H as [H|H]; try discriminate; auto.
    + intros [| | | |]; cbn; auto 10.
  - apply (C8_exit_codes no_model quiet_room). reflexivity.
Defined.

(** ** Shutdown *)

(** A thread function tests [g_running] once before each execution of its
    body. If the handler runs after the thread has made [c] tests, the
    function executes exactly the [c] bodies whose test read [true], no
    body after the test that read [false], and returns at that test; if
    the handler never runs, the function never returns. *)
Theorem task_returns_at_first_cleared_test {State : Type}
  (body : nat -> State -> State) (c : nat) (s : State) :
  (forall fuel, c < fuel ->
     Task.loop body (Some c) fuel 0 s = Some (c, Task.bodies body c 0 s)) /\
  (forall fuel, fuel <= c -> Task.loop body (Some c) fuel 0 s = None) /\
  (forall fuel, Task.loop body None fuel 0 s = None).
Proof.
  split; [|split].
  - intros fuel Hfuel. now apply Task.loop_returns.
  - assert (H : forall fuel k s', k + fuel <= c ->
                Task.loop body (Some c) fuel k s' = None).
    { induction fuel as [|fuel IH]; intros k s' Hk; [reflexivity|].
      cbn [Task.loop Task.g_running].
      replace (k <? c) with true by (symmetry; apply Nat.ltb_lt; lia).
      apply IH. lia. }
    intros fuel Hfuel. now apply H.
  - intros fuel. apply Task.loop_never_returns.
Qed.

(** The display task interrupted after three refreshes: it has rendered
    three times and returns at its fourth test. *)
Lemma task_returns_at_first_cleared_test_example :
  Task.loop (fun _ (rendered : nat) => S rendered) (Some 3) 4 0 0 = Some (3, 3).
Proof.
  apply (task_returns_at_first_cleared_test (fun _ rendered => S rendered) 3 0).
  lia.
Defined.

(** ** Shutdown latency *)

Section TimedFacts.

Local Open Scope Z_scope.

Variable t : Orchestrator.task.
Variable work : nat -> Z.
Variable mode : nat -> bool.
Hypothesis work_nonneg : forall k, 0 <= work k.

Lemma sleep_interval_bounds (g_low_power_mode : bool) :
  10 <= Timed.sleep_interval t g_low_power_mode <= 300000.
Proof. destruct t, g_low_power_mode; cbn; lia. Qed.

Lemma start_succ k :
  Timed.start t work mode (S k)
  = Timed.start t work mode k + work k + Timed.sleep_interval t (mode k).
Proof. reflexivity. Qed.

(** Every iteration lasts a millisecond at least. *)
Lemma start_grows k : Z.of_nat k <= Timed.start t work mode k.
Proof.
  induction k as [|k IH]; [reflexivity|]. rewrite start_succ.
  pose proof (work_nonneg k). pose proof (sleep_interval_bounds (mode k)). lia.
Qed.

Lemma start_bodies n : forall k,
  Task.bodies (Timed.body t work mode) n k (Timed.start t work mode k)
  = Timed.start t work mode (k + n).
Proof.
  induction n as [|n IH]; intros k; cbn [Task.bodies].
  - now rewrite Nat.add_0_r.
  - change (Timed.body t work mode k (Timed.start t work mode k))
      with (Timed.start t work mode (S k)).
    rewrite IH. f_equal. lia.
Qed.

(** The loop returns at the first test made at or after the time the flag
    was cleared. *)
Lemma loop_first_late_test (stop : Z) : forall fuel k,
  (forall j, (j < k)%nat -> Timed.start t work mode j < stop) ->
  (Z.to_nat (stop - Timed.start t work mode k) < fuel)%nat ->
  exists c,
    Timed.loop t work mode (Some stop) fuel k (Timed.start t work mode k)
      = Some (c, Timed.start t work mode c) /\
    (forall j, (j < c)%nat -> Timed.start t work mode j < stop) /\
    stop <= Timed.start t work mode c.
Proof.
  induction fuel as [|fuel IH]; intros k Hbefore Hfuel; [lia|].
  cbn [Timed.loop Timed.g_running].
  destruct (Z.ltb_spec (Timed.start t work mode k) stop) as [Hlt|Hge].
  - change (Timed.body t work mode k (Timed.start t work mode k))
      with (Timed.start t work mode (S k)).
    apply IH.
    + intros j Hj. destruct (Nat.eq_dec j k) as [->|Hne]; [exact Hlt|].
      apply Hbefore. lia.
    + rewrite start_succ.
      pose proof (work_nonneg k). pose proof (sleep_interval_bounds (mode k)).
      lia.
  - exists k. auto.
Qed.

Lemma loop_never_cleared : forall fuel k now,
  Timed.loop t work mode None fuel k now = None.
Proof. induction fuel as [|fuel IH]; intros k now; cbn; auto. Qed.

End TimedFacts.

(** C9, as the design document states it, fails for the capture task: its
    body blocks for the 1000 ms of the frame before its 10 ms sleep. With
    the flag cleared 1 ms after the thread made its first test, the thread
    function returns at 1010 ms: 1009 ms after the flag was cleared, not
    within its sleep interval of 10 ms. *)
Lemma C9_capture_outlasts_its_sleep_interval :
  Timed.loop Orchestrator.audio_thread (fun _ => Timed.capture_ms)
             (fun _ => false) (Some 1%Z) 2 0 0
    = Some (1, 1010%Z) /\
  (Timed.sleep_interval Orchestrator.audio_thread false < 1010 - 1)%Z.
Proof. split; reflexivity. Qed.

(** C9, amended. After the flag is cleared, at time [stop], a task makes
    one test of the flag per iteration, starts no iteration (every
    iteration it executes began before [stop]) and returns at its next
    test, once the iteration in progress is over: later than [stop] by
    less than the time the body of that iteration takes plus its sleep
    interval. It returns within its sleep interval when the flag is
    cleared while it sleeps. A task whose flag is never cleared never
    returns. *)
Theorem C9_shutdown_latency (t : Orchestrator.task) (work : nat -> Z)
  (mode : nat -> bool) (stop : Z) (fuel : nat) :
  (forall k, 0 <= work k)%Z ->
  (0 <= stop)%Z ->
  Z.to_nat stop < fuel ->
  let start := Timed.start t work mode in
  (exists c,
     Timed.loop t work mode (Some stop) fuel 0 0 = Some (c, start c) /\
     Task.loop (Timed.body t work mode) (Some c) fuel 0 0%Z = Some (c, start c) /\
     (forall k, k < c -> (start k < stop)%Z) /\
     (stop <= start c)%Z /\
     (start c - stop
      < work (pred c) + Timed.sleep_interval t (mode (pred c)))%Z /\
     ((start (pred c) + work (pred c) <= stop)%Z ->
      (start c - stop <= Timed.sleep_interval t (mode (pred c)))%Z)) /\
  Timed.loop t work mode None fuel 0 0 = None.
Proof.
  intros Hwork Hstop Hfuel start. split; [|apply loop_never_cleared].
  destruct (loop_first_late_test t work mode Hwork stop fuel 0) as (c & Hloop & Hbefore & Hafter).
  { intros j Hj. lia. }
  { cbn [Timed.start]. now rewrite Z.sub_0_r. }
  exists c. cbn [Timed.start] in Hloop. fold start in Hloop, Hbefore, Hafter.
  assert (Hc : c < fuel).
  { destruct c as [|c']; [lia|].
    pose proof (Hbefore c' (Nat.lt_succ_diag_r c')).
    pose proof (start_grows t work mode Hwork c'). fold start in H0. lia. }
  pose proof (sleep_interval_bounds t (mode (pred c))) as Hsleep.
  pose proof (Hwork (pred c)) as Hw.
  split; [exact Hloop|split; [|split; [exact Hbefore|split; [exact Hafter|]]]].
  - rewrite (Task.loop_returns (Timed.body t work mode) c c 0 fuel 0%Z eq_refl Hc).
    f_equal. f_equal.
    exact (start_bodies t work mode c 0).
  - destruct c as [|c']; cbn [pred] in *.
    + unfold start in *. cbn [Timed.start] in *. split; lia.
    + pose proof (Hbefore c' (Nat.lt_succ_diag_r c')).
      unfold start in *. rewrite start_succ. split; lia.
Qed.

(** The display task with a body of 3 ms, interrupted at 250 ms: it
    returns at its fourth test, at 309 ms. *)
Lemma C9_shutdown_latency_example :
  Timed.loop Orchestrator.display_thread (fun _ => 3%Z) (fun _ => false)
             (Some 250%Z) 300 0 0
  = Some (3, 309%Z).
Proof.
  destruct (C9_shutdown_latency Orchestrator.display_thread (fun _ => 3%Z)
              (fun _ => false) 250 300) as [(c & Hloop & _ & Hbefore & Hafter & _) _].
  - intros _. lia.
  - lia.
  - cbn. lia.
  - rewrite Hloop.
    assert (Hc : c = 3).
    { destruct c as [|[|[|[|c]]]]; cbn in Hafter; try lia.
      specialize (Hbefore 3 ltac:(lia)). cbn in Hbefore. lia. }
    subst c. reflexivity.
Defined.

(** ** The threads in the process *)

(** The turns of [t] in a schedule. *)
Definition is_turn (t : Orchestrator.task) (e : Orchestrator.event) : bool :=
  match e with
  | Orchestrator.Turn t' => Orchestrator.task_eqb t t'
  | Orchestrator.Deliver _ => false
  end.

Definition turns (t : Orchestrator.task) (schedule : list Orchestrator.event)
  : nat :=
  length (filter (is_turn t) schedule).

(** The events before the first delivery of a handled signal, if there is
    one. *)
Fixpoint until_interrupt (schedule : list Orchestrator.event)
  : option (list Orchestrator.event) :=
  match schedule with
  | [] => None
  | Orchestrator.Deliver sig :: rest =>
      if Orchestrator.handled sig then Some []
      else option_map (cons (Orchestrator.Deliver sig)) (until_interrupt rest)
  | e :: rest => option_map (cons e) (until_interrupt rest)
  end.

(** The tests of the flag [t] made before [signalHandler] ran. *)
Definition tests_before (t : Orchestrator.task)
  (schedule : list Orchestrator.event) : option nat :=
  option_map (turns t) (until_interrupt schedule).

Section ProcessThreads.

Import Orchestrator.

Variable env : environment.
Variable stt : Stt.SpeechToText.

Lemma turns_snoc t schedule e :
  turns t (schedule ++ [e])
  = turns t schedule + (if is_turn t e then 1 else 0).
Proof.
  unfold turns. rewrite filter_app, length_app. cbn [filter].
  now destruct (is_turn t e).
Qed.

Lemma until_interrupt_snoc schedule e :
  until_interrupt (schedule ++ [e])
  = match until_interrupt schedule with
    | Some before => Some before
    | None =>
        match e with
        | Deliver sig => if handled sig then Some schedule else None
        | Turn _ => None
        end
    end.
Proof.
  induction schedule as [|e' schedule IH]; cbn [app until_interrupt].
  - destruct e as [sig|t']; [destruct (handled sig)|]; reflexivity.
  - destruct e' as [sig'|t'']; [destruct (handled sig'); [reflexivity|]|];
      rewrite IH; destruct (until_interrupt schedule); cbn [option_map];
      try reflexivity;
      destruct e as [sig|t']; [destruct (handled sig)| |destruct (handled sig)|];
      reflexivity.
Qed.

Lemma iterations_body t t' p r m rs kd co :
  iterations t (mkProcess r m (bodies p ++ [t']) rs kd co)
  = iterations t p + (if task_eqb t t' then 1 else 0).
Proof.
  unfold iterations. cbn [bodies]. rewrite filter_app, length_app.
  cbn [filter]. now destruct (task_eqb t t').
Qed.

Lemma join_returned t t' p r m bs kd co :
  join t (mkProcess r m bs (returned p ++ [t']) kd co)
  = join t p || task_eqb t t'.
Proof.
  unfold join. cbn [returned]. rewrite existsb_app. cbn [existsb].
  now rewrite orb_false_r.
Qed.

(** What the process has done, read off the schedule. *)
Definition follows (schedule : list event) (p : process) : Prop :=
  killed p = None /\
  g_running p
  = match until_interrupt schedule with None => true | Some _ => false end /\
  forall t,
    match tests_before t schedule with
    | None => join t p = false /\ iterations t p = turns t schedule
    | Some c =>
        c <= turns t schedule /\ join t p = (c <? turns t schedule)
        /\ iterations t p = c
    end.

Lemma follows_step schedule p e :
  follows schedule p -> e <> Deliver SIGTERM ->
  follows (schedule ++ [e]) (step env stt p e).
Proof.
  intros (Hk & Hr & Ht) He. unfold follows, tests_before in *.
  rewrite until_interrupt_snoc. unfold step, finished. rewrite Hk.
  destruct (join_all p) eqn:Hall.
  { (* [main] has returned *)
    pose proof (join_all_join p Hall) as Hj.
    destruct (until_interrupt schedule) as [before|] eqn:Hu; cbn [option_map] in *.
    - split; [exact Hk|split; [exact Hr|]]. intros t.
      destruct (Ht t) as (Hle & Hjt & Hit). rewrite turns_snoc.
      rewrite (Hj t) in Hjt. symmetry in Hjt. apply Nat.ltb_lt in Hjt.
      split; [lia|split; [|exact Hit]].
      rewrite (Hj t). symmetry. apply Nat.ltb_lt. lia.
    - destruct (Ht audio_thread) as [Hf _]. rewrite (Hj audio_thread) in Hf.
      discriminate. }
  destruct e as [[|]|t0]; cbn [handled]; [|congruence|].
  - (* the interrupt *)
    split; [exact Hk|].
    destruct (until_interrupt schedule) as [before|] eqn:Hu; cbn [option_map] in *.
    + split; [reflexivity|]. intros t. rewrite turns_snoc. cbn [is_turn].
      rewrite Nat.add_0_r. exact (Ht t).
    + split; [reflexivity|]. intros t. rewrite turns_snoc. cbn [is_turn].
      rewrite Nat.add_0_r. destruct (Ht t) as [Hjt Hit].
      split; [lia|split; [|exact Hit]].
      change (join t (signalHandler (signum SIGINT) p)) with (join t p).
      rewrite Hjt. symmetry. apply Nat.ltb_ge. lia.
  - (* a turn of [t0] *)
    destruct (join t0 p) eqn:Hj0.
    { split; [exact Hk|].
      destruct (until_interrupt schedule) as [before|] eqn:Hu; cbn [option_map] in *.
      - split; [exact Hr|]. intros t. rewrite turns_snoc. cbn [is_turn].
        destruct (Ht t) as (Hle & Hjt & Hit).
        destruct (task_eqb t t0) eqn:E.
        + apply task_eqb_eq in E. subst t0. rewrite Hj0 in Hjt.
          symmetry in Hjt. apply Nat.ltb_lt in Hjt.
          split; [lia|split; [|exact Hit]].
          rewrite Hj0. symmetry. apply Nat.ltb_lt. lia.
        + rewrite Nat.add_0_r. auto.
      - destruct (Ht t0) as [Hf _]. congruence. }
    destruct (until_interrupt schedule) as [before|] eqn:Hu;
      cbn [option_map] in *; rewrite Hr.
    + (* the flag reads [false]: the thread function returns *)
      split; [reflexivity|split; [reflexivity|]].
      intros t. rewrite turns_snoc. cbn [is_turn].
      destruct (Ht t) as (Hle & Hjt & Hit).
      rewrite join_returned.
      change (iterations t (mkProcess _ _ (bodies p) _ _ _))
        with (iterations t p).
      destruct (task_eqb t t0) eqn:E.
      * apply task_eqb_eq in E. subst t0. rewrite Hj0 in Hjt.
        symmetry in Hjt. apply Nat.ltb_ge in Hjt.
        split; [lia|split; [|exact Hit]].
        rewrite orb_true_r. symmetry. apply Nat.ltb_lt. lia.
      * rewrite Nat.add_0_r, orb_false_r. auto.
    + (* the flag reads [true]: one more body *)
      split; [reflexivity|split; [reflexivity|]].
      intros t. rewrite turns_snoc. cbn [is_turn].
      destruct (Ht t) as [Hjt Hit].
      change (join t (mkProcess true _ _ (returned p) _ _)) with (join t p).
      split; [exact Hjt|].
      rewrite iterations_body. now rewrite Hit.
Qed.

Lemma follows_run schedule :
  ~ In (Deliver SIGTERM) schedule ->
  follows schedule (run env stt schedule boot).
Proof.
  induction schedule as [|e schedule IH] using rev_ind; intros Hterm.
  - split; [reflexivity|split; [reflexivity|]]. intros t. now split.
  - rewrite run_snoc. apply follows_step.
    + apply IH. intros H. apply Hterm, in_or_app. now left.
    + intros ->. apply Hterm, in_or_app. right. now left.
Qed.

End ProcessThreads.

Lemma bodies_counted n : forall k s,
  Task.bodies (fun (_ : nat) (done : nat) => S done) n k s = s + n.
Proof.
  induction n as [|n IH]; intros k s; cbn [Task.bodies]; [lia|].
  rewrite IH. lia.
Qed.

Lemma loop_still_running {State : Type} (body : nat -> State -> State) (c : nat) :
  forall fuel k s, k + fuel <= c -> Task.loop body (Some c) fuel k s = None.
Proof.
  induction fuel as [|fuel IH]; intros k s Hk; [reflexivity|].
  cbn [Task.loop Task.g_running].
  replace (k <? c) with true by (symmetry; apply Nat.ltb_lt; lia).
  apply IH. lia.
Qed.

(** In the running process, whatever the interleaving, each thread is its
    thread function run alone: it has executed one body per turn it got
    before the interrupt, none after it, and it has returned exactly when
    it got a turn after the interrupt. [Task.loop], given the tests the
    thread made before [signalHandler] ran and one unit of fuel per turn,
    returns in the same case and with the same number of bodies. *)
Theorem thread_in_process_is_task_loop (env : Orchestrator.environment)
  (stt : Stt.SpeechToText) (schedule : list Orchestrator.event)
  (t : Orchestrator.task) :
  ~ In (Orchestrator.Deliver Orchestrator.SIGTERM) schedule ->
  let p := Orchestrator.run env stt schedule Orchestrator.boot in
  Task.loop (fun _ done => S done) (tests_before t schedule)
            (turns t schedule) 0 0
  = (if Orchestrator.join t p
     then Some (Orchestrator.iterations t p, Orchestrator.iterations t p)
     else None) /\
  (Orchestrator.join t p = false ->
   Orchestrator.iterations t p = turns t schedule).
Proof.
  intros Hterm p.
  destruct (follows_run env stt schedule Hterm) as (_ & _ & Ht).
  specialize (Ht t). fold p in Ht.
  destruct (tests_before t schedule) as [c|].
  - destruct Ht as (Hle & Hj & Hit). rewrite Hj, Hit.
    destruct (Nat.ltb_spec c (turns t schedule)) as [Hlt|Hge].
    + split; [|discriminate].
      rewrite (Task.loop_returns _ c c 0 (turns t schedule) 0 eq_refl Hlt).
      now rewrite bodies_counted.
    + split; [|intros _; lia]. apply loop_still_running. lia.
  - destruct Ht as [Hj Hit]. rewrite Hj. split; [|auto].
    apply Task.loop_never_returns.
Qed.

(** Two displays and one capture, the interrupt, then a turn of the capture
    thread: it has run one body and returned; the display thread, which
    got no turn since, has run two and is still in its loop. *)
Lemma thread_in_process_is_task_loop_example :
  let schedule :=
    [Orchestrator.Turn Orchestrator.display_thread;
     Orchestrator.Turn Orchestrator.audio_thread;
     Orchestrator.Turn Orchestrator.display_thread;
     Orchestrator.Deliver Orchestrator.SIGINT;
     Orchestrator.Turn Orchestrator.audio_thread] in
  let p := Orchestrator.run quiet_room whisper_stt schedule Orchestrator.boot in
  Task.loop (fun _ done => S done) (Some 1) 2 0 0
    = (if Orchestrator.join Orchestrator.audio_thread p
       then Some (Orchestrator.iterations Orchestrator.audio_thread p,
                  Orchestrator.iterations Orchestrator.audio_thread p)
       else None) /\
  Orchestrator.iterations Orchestrator.display_thread p = 2.
Proof.
  intros schedule p. split.
  - apply (thread_in_process_is_task_loop quiet_room whisper_stt schedule
             Orchestrator.audio_thread).
    cbn. intros H. repeat destruct H as [H|H]; try discriminate; auto.
  - apply (thread_in_process_is_task_loop quiet_room whisper_stt schedule
             Orchestrator.display_thread).
    + cbn. intros H. repeat destruct H as [H|H]; try discriminate; auto.
    + reflexivity.
Defined.

(** ** The words of the wrapped text *)

Section WordsOfLines.

(** A run of characters without a space. *)
Definition spacefree (w : string) : Prop :=
  forall c, In c (list_ascii_of_string w) -> Display.isspace c = false.

Lemma append_empty_r (s : string) : (s ++ "")%string = s.
Proof. induction s as [|c s IH]; cbn; [reflexivity | now rewrite IH]. Qed.

Lemma append_assoc (s1 s2 s3 : string) :
  ((s1 ++ s2) ++ s3)%string = (s1 ++ s2 ++ s3)%string.
Proof. induction s1 as [|c s1 IH]; cbn; [reflexivity | now rewrite IH]. Qed.

Lemma spacefree_cons c w :
  spacefree (String c w) <-> Display.isspace c = false /\ spacefree w.
Proof.
  unfold spacefree. cbn [list_ascii_of_string]. split.
  - intros H. split; [apply H; now left | intros d Hd; apply H; now right].
  - intros [Hc Hw] d [<-|Hd]; auto.
Qed.

Lemma spacefree_append w1 w2 :
  spacefree w1 -> spacefree w2 -> spacefree (w1 ++ w2)%string.
Proof.
  induction w1 as [|c w1 IH]; cbn; [auto|].
  rewrite !spacefree_cons. intros [Hc Hw1] Hw2. auto.
Qed.

(** Reading up to a space closes the word being read. *)
Lemma extract_at_space word a b :
  Display.extract word (a ++ String " " b)%string
  = Display.extract word a ++ Display.extract "" b.
Proof.
  revert word; induction a as [|c a IH]; intros word; cbn.
  - now destruct (empty word).
  - destruct (Display.isspace c); [|apply IH].
    destruct (empty word); cbn; now rewrite IH.
Qed.

(** Reading a run without spaces extends the word being read. *)
Lemma extract_spacefree word w :
  spacefree w ->
  Display.extract word w
  = if empty (word ++ w)%string then [] else [(word ++ w)%string].
Proof.
  revert word; induction w as [|c w IH]; intros word Hw; cbn [Display.extract].
  - now rewrite append_empty_r.
  - apply spacefree_cons in Hw as [Hc Hw]. rewrite Hc, IH by exact Hw.
    now rewrite append_assoc.
Qed.

(** Every word read is non-empty and has no space in it. *)
Lemma extract_words word text :
  spacefree word ->
  Forall (fun w => empty w = false /\ spacefree w) (Display.extract word text).
Proof.
  revert word; induction text as [|c text IH]; intros word Hword;
    cbn [Display.extract].
  - destruct (empty word) eqn:E; repeat constructor; assumption.
  - destruct (Display.isspace c) eqn:Hc.
    + assert (Hnil : spacefree "") by (intros d []).
      destruct (empty word) eqn:E; [now apply IH|].
      constructor; [now split | now apply IH].
    + apply IH, spacefree_append; [exact Hword|].
      apply spacefree_cons. split; [exact Hc | intros d []].
Qed.

Lemma words_of_word w :
  empty w = false -> spacefree w -> Display.words w = [w].
Proof.
  intros Hne Hw. unfold Display.words. rewrite extract_spacefree by exact Hw.
  cbn. now rewrite Hne.
Qed.

(** The loop of [wrapText] keeps the words it has placed, in order. *)
Lemma place_keeps_words ws : forall lines current_line,
  Forall (fun w => empty w = false /\ spacefree w) ws ->
  flat_map Display.words (fst (fold_left Display.place ws (lines, current_line)))
  ++ Display.words (snd (fold_left Display.place ws (lines, current_line)))
  = flat_map Display.words lines ++ Display.words current_line ++ ws.
Proof.
  induction ws as [|w ws IH]; intros lines current_line Hws; cbn [fold_left].
  - cbn. now rewrite app_nil_r.
  - inversion Hws as [|w' ws' [Hne Hw] Hrest]; subst.
    pose proof (words_of_word w Hne Hw) as Hword.
    destruct (Display.place (lines, current_line) w) as [lines' current_line']
      eqn:Hplace.
    rewrite IH by exact Hrest. unfold Display.place in Hplace.
    destruct (empty current_line) eqn:Hcur.
    + injection Hplace as <- <-.
      apply empty_true_iff in Hcur. subst current_line. now rewrite Hword.
    + destruct (String.length current_line + String.length w + 1
                <=? Display.chars_per_line); injection Hplace as <- <-.
      * f_equal. unfold Display.words at 1. cbn [append].
        rewrite extract_at_space. fold (Display.words current_line).
        fold (Display.words w). now rewrite Hword, <- app_assoc.
      * rewrite flat_map_app. cbn [flat_map]. rewrite app_nil_r, Hword.
        now rewrite <- !app_assoc.
Qed.

End WordsOfLines.

(** The lines [wrapText] lays out hold the words of the text, each whole
    and in order; the eight lines it keeps hold a prefix of them, and the
    words of the dropped lines are the rest. *)
Theorem wrapText_keeps_words (text : string) :
  flat_map Display.words (Display.layout text []) = Display.words text /\
  Display.words text
  = flat_map Display.words (Display.showText text)
    ++ flat_map Display.words (skipn 8 (Display.layout text [])).
Proof.
  assert (Hlayout : flat_map Display.words (Display.layout text [])
                    = Display.words text).
  { unfold Display.layout.
    pose proof (place_keeps_words (Display.words text) [] ""
                  (extract_words "" text (fun d (H : In d []) => match H with end)))
      as H.
    destruct (fold_left Display.place (Display.words text) ([], ""))
      as [lines current_line].
    cbn [fst snd flat_map app] in H.
    destruct (empty current_line) eqn:E; cbn [negb].
    - apply empty_true_iff in E. subst. cbn in H. now rewrite app_nil_r in H.
    - rewrite flat_map_app. cbn [flat_map]. now rewrite app_nil_r. }
  split; [exact Hlayout|].
  unfold Display.showText. rewrite Display.wrapText_firstn.
  rewrite <- flat_map_app, firstn_skipn. now symmetry.
Qed.

(** * The rest of the code: object life cycles, the display and audio
    drivers, and further properties of the tasks *)

(** ** The public interface of [SpeechToText] *)

Module SttApi.

(** [SpeechToText::setLanguage] *)
Definition setLanguage (language_code : string) (o : Stt.SpeechToText)
  : Stt.SpeechToText :=
  Stt.mkStt (Stt.engine o) language_code (Stt.engine_handle o).

(** A call of a public member function on a constructed object. *)
Inductive call : Type :=
| SetEngine (engine_name : string)
| SetLanguage (language_code : string)
| Transcribe (w : Stt.whisper_call).

Definition apply (o : Stt.SpeechToText) (c : call) : Stt.SpeechToText :=
  match c with
  | SetEngine engine_name => fst (Stt.setEngine engine_name o)
  | SetLanguage language_code => setLanguage language_code o
  | Transcribe _ => o
  end.

Definition after (calls : list call) (o : Stt.SpeechToText) : Stt.SpeechToText :=
  fold_left apply calls o.

(** The contexts [SpeechToText::cleanupEngine] passes to [whisper_free]:
    the handle, when there is one and the engine is [WHISPER]. *)
Definition whisper_free (o : Stt.SpeechToText) : list nat :=
  match Stt.engine_handle o, Stt.engine o with
  | Some ctx, Stt.WHISPER => [ctx]
  | _, _ => []
  end.

(** The calls of [whisper_free] over the life of an object: construction
    with [engine_name] (where [model] is what [whisper_init_from_file]
    returns), the given calls, then the destructor. A constructor that
    throws runs no destructor. *)
Definition freed_in_life (engine_name : string) (model : option nat)
  (calls : list call) : list nat :=
  match Stt.construct engine_name model with
  | Some o => whisper_free (after calls o)
  | None => []
  end.

(** The context the constructor loads and keeps. *)
Definition loaded (engine_name : string) (model : option nat) : list nat :=
  match Stt.construct engine_name model with
  | Some o => match Stt.engine_handle o with Some ctx => [ctx] | None => [] end
  | None => []
  end.

Lemma handle_after calls : forall o,
  Stt.engine_handle (after calls o) = Stt.engine_handle o.
Proof.
  induction calls as [|c calls IH]; intros o; [reflexivity|].
  unfold after in *. cbn [fold_left]. rewrite IH.
  destruct c as [name|code|w]; cbn [apply setLanguage Stt.engine_handle];
    try reflexivity.
  unfold Stt.setEngine.
  repeat match goal with |- context [if ?b then _ else _] => destruct b end;
    reflexivity.
Qed.

Lemma cleanupEngine_handle o : Stt.engine_handle (Stt.cleanupEngine o) = None.
Proof.
  unfold Stt.cleanupEngine. destruct (Stt.engine_handle o) eqn:E;
    [reflexivity | exact E].
Qed.

End SttApi.

(** No member function called after construction touches the handle. So
    the destructor frees the context the constructor loaded exactly when
    the engine selected last is Whisper: after [setEngine] to Vosk or
    DeepSpeech the loaded context is never freed. No run frees a context
    twice, or one that was not loaded. *)
Theorem whisper_context_freed_iff_engine_kept (engine_name : string)
  (model : option nat) (calls : list SttApi.call) (o : Stt.SpeechToText) :
  Stt.construct engine_name model = Some o ->
  (Stt.engine (SttApi.after calls o) = Stt.WHISPER ->
     SttApi.freed_in_life engine_name model calls
       = SttApi.loaded engine_name model) /\
  (Stt.engine (SttApi.after calls o) <> Stt.WHISPER ->
     SttApi.freed_in_life engine_name model calls = []) /\
  SttApi.whisper_free (Stt.cleanupEngine (SttApi.after calls o)) = [].
Proof.
  intros Hc. unfold SttApi.freed_in_life, SttApi.loaded. rewrite Hc.
  unfold SttApi.whisper_free at 1 2.
  rewrite SttApi.handle_after. split; [|split].
  - intros ->. now destruct (Stt.engine_handle o).
  - intros Hne. destruct (Stt.engine_handle o); [|reflexivity].
    destruct (Stt.engine (SttApi.after calls o)); congruence.
  - unfold SttApi.whisper_free. now rewrite SttApi.cleanupEngine_handle.
Qed.

(** A Whisper object switched to Vosk: the context 7 it loaded is not
    freed; switched back before destruction, it is. *)
Lemma whisper_context_freed_iff_engine_kept_example :
  SttApi.freed_in_life "whisper" (Some 7) [SttApi.SetEngine "vosk"] = [] /\
  SttApi.freed_in_life "whisper" (Some 7)
    [SttApi.SetEngine "vosk"; SttApi.SetEngine "Whisper"] = [7].
Proof.
  split.
  - destruct (whisper_context_freed_iff_engine_kept "whisper" (Some 7)
                [SttApi.SetEngine "vosk"]
                (Stt.mkStt Stt.WHISPER "en" (Some 7)) eq_refl) as (_ & H & _).
    apply H. discriminate.
  - destruct (whisper_context_freed_iff_engine_kept "whisper" (Some 7)
                [SttApi.SetEngine "vosk"; SttApi.SetEngine "Whisper"]
                (Stt.mkStt Stt.WHISPER "en" (Some 7)) eq_refl) as (H & _ & _).
    apply H. reflexivity.
Defined.

(** An object constructed with an engine other than Whisper has no model,
    and no later call loads one: once [setEngine] selects Whisper, every
    transcription returns the message "Whisper model not initialized". *)
Theorem whisper_selected_later_never_transcribes (engine_name : string)
  (model : option nat) (calls : list SttApi.call) (o : Stt.SpeechToText)
  (w : Stt.whisper_call) :
  Stt.construct engine_name model = Some o ->
  Stt.engine o <> Stt.WHISPER ->
  Stt.engine (SttApi.after calls o) = Stt.WHISPER ->
  Stt.transcribe (SttApi.after calls o) w = "Whisper model not initialized"%string.
Proof.
  intros Hc Hne Hw.
  assert (Hnone : Stt.engine_handle o = None).
  { unfold Stt.construct in Hc.
    destruct (Stt.setEngine engine_name (Stt.mkStt Stt.WHISPER "en" None))
      as [o0 log] eqn:Hset.
    assert (Hh0 : Stt.engine_handle o0 = None).
    { unfold Stt.setEngine in Hset.
      repeat match type of Hset with
             | context [if ?b then _ else _] => destruct b
             end; injection Hset as <- _; reflexivity. }
    cbn [fst] in Hc. unfold Stt.initializeEngine, Stt.cleanupEngine in Hc.
    rewrite Hh0 in Hc.
    destruct (Stt.engine o0) eqn:He; [destruct model|..]; cbn in Hc;
      try discriminate; injection Hc as <-; cbn in *; congruence. }
  unfold Stt.transcribe, Stt.transcribeWithWhisper.
  now rewrite Hw, SttApi.handle_after, Hnone.
Qed.

Lemma whisper_selected_later_never_transcribes_example :
  Stt.transcribe
    (SttApi.after [SttApi.SetEngine "whisper"]
       (Stt.mkStt Stt.VOSK "en" None))
    (Stt.mkCall 0 [" hello"%string])
  = "Whisper model not initialized"%string.
Proof.
  apply (whisper_selected_later_never_transcribes "vosk" (Some 7)
           [SttApi.SetEngine "whisper"] (Stt.mkStt Stt.VOSK "en" None));
    [reflexivity | discriminate | reflexivity].
Defined.

(** ** What a transcription looks like *)

Section Transcript.

(** The loop of [transcribeWithWhisper] over the segments, from the result
    accumulated so far. *)
Definition accumulate (result : string) (segments : list string) : string :=
  fold_left (fun result seg => (result ++ seg ++ " ")%string) segments result.

Fixpoint total_length (segments : list string) : nat :=
  match segments with
  | [] => 0
  | seg :: rest => String.length seg + 1 + total_length rest
  end.

(** The last character of a string, if any. *)
Fixpoint last_char (s : string) : option ascii :=
  match s with
  | EmptyString => None
  | String c EmptyString => Some c
  | String _ rest => last_char rest
  end.

Lemma length_accumulate segments : forall result,
  String.length (accumulate result segments)
  = String.length result + total_length segments.
Proof.
  induction segments as [|seg rest IH]; intros result; cbn [accumulate fold_left].
  - cbn. lia.
  - fold (accumulate (result ++ seg ++ " ")%string rest).
    rewrite IH, !length_append. cbn. lia.
Qed.

Lemma last_char_append_space s : last_char (s ++ " ")%string = Some " "%char.
Proof.
  induction s as [|c s IH]; [reflexivity|].
  cbn [append last_char]. rewrite IH.
  destruct (s ++ " ")%string eqn:E; [destruct s; discriminate | reflexivity].
Qed.

Lemma last_char_accumulate segments : forall result,
  segments <> [] -> last_char (accumulate result segments) = Some " "%char.
Proof.
  induction segments as [|seg rest IH]; intros result Hne; [congruence|].
  cbn [accumulate fold_left]. fold (accumulate (result ++ seg ++ " ")%string rest).
  destruct rest as [|seg' rest'].
  - cbn [accumulate fold_left].
    rewrite <- append_assoc. apply last_char_append_space.
  - apply IH. discriminate.
Qed.

End Transcript.

(** On an object whose Whisper model is loaded, a successful inference
    returns the empty string exactly when Whisper reports no segment.
    Otherwise the text has one character more per segment than the
    segments have together, and ends with a space: a single segment with
    no text yields the record " ". Every other path of [transcribe]
    returns a non-empty message. *)
Theorem transcript_shape (o : Stt.SpeechToText) (w : Stt.whisper_call) :
  (Stt.transcribe o w = ""%string <->
     Stt.transcription_failed o w = false /\ Stt.segment_text w = []) /\
  (Stt.transcription_failed o w = false ->
     String.length (Stt.transcribe o w) = total_length (Stt.segment_text w) /\
     (Stt.segment_text w <> [] ->
      last_char (Stt.transcribe o w) = Some " "%char)).
Proof.
  unfold Stt.transcribe, Stt.transcribeWithWhisper, Stt.transcription_failed,
    Stt.transcribeWithVosk, Stt.transcribeWithDeepSpeech.
  destruct (Stt.engine o); [destruct (Stt.engine_handle o)|..];
    try (split; [split; [discriminate | intros [? _]; discriminate]
                | discriminate]).
  destruct (negb (Stt.whisper_full w =? 0)%Z);
    [split; [split; [discriminate | intros [? _]; discriminate] | discriminate]|].
  fold (accumulate "" (Stt.segment_text w)).
  split; [split|].
  - intros Hempty. split; [reflexivity|].
    apply (f_equal String.length) in Hempty.
    rewrite length_accumulate in Hempty.
    destruct (Stt.segment_text w); [reflexivity | cbn in Hempty; lia].
  - intros [_ ->]. reflexivity.
  - intros _. split.
    + now rewrite length_accumulate.
    + apply last_char_accumulate.
Qed.

(** A frame in which Whisper finds one segment without text. *)
Lemma transcript_shape_example :
  Stt.transcribe whisper_stt (Stt.mkCall 0 [""%string]) = " "%string /\
  last_char (Stt.transcribe whisper_stt (Stt.mkCall 0 [" call"; " for help"]%string))
    = Some " "%char.
Proof.
  split; [reflexivity|].
  apply (transcript_shape whisper_stt (Stt.mkCall 0 [" call"; " for help"]%string));
    [reflexivity | discriminate].
Defined.

(** ** The shared state *)

Lemma last_app_nonempty {A : Type} (l1 l2 : list A) (d : A) :
  l2 <> [] -> last (l1 ++ l2) d = last l2 d.
Proof.
  intros Hne. induction l1 as [|x l1 IH]; [reflexivity|].
  cbn [app last]. rewrite IH.
  destruct (l1 ++ l2) eqn:E; [|reflexivity].
  apply app_eq_nil in E. tauto.
Qed.

(** In every state the capture loop can reach, the current text is the
    newest record of the history (eviction only removes the oldest), and
    the history is a suffix of the texts appended. *)
Theorem current_is_newest_record (detect : string -> bool) (texts : list string) :
  let s := Capture.run detect texts Shared.initial in
  Shared.g_current_transcription s
    = last (Shared.g_transcription_history s) ""%string /\
  exists evicted,
    Capture.appended texts = evicted ++ Shared.g_transcription_history s.
Proof.
  cbv zeta. rewrite Capture.run_appends.
  rewrite Shared.current_appends, Shared.history_appends.
  set (l := Capture.appended texts). split.
  - destruct (Nat.le_gt_cases (length l) 100) as [Hle|Hgt].
    + replace (length l - 100) with 0 by lia. reflexivity.
    + rewrite <- (firstn_skipn (length l - 100) l) at 1.
      apply last_app_nonempty. intros E. apply (f_equal (@length _)) in E.
      rewrite length_skipn in E. cbn in E. lia.
  - exists (firstn (length l - 100) l). symmetry. apply firstn_skipn.
Qed.

(** ** The shape of the wrapped lines *)

Section WrappedLines.

(** Words separated by single spaces. *)
Fixpoint join (ws : list string) : string :=
  match ws with
  | [] => ""
  | [w] => w
  | w :: rest => (w ++ " " ++ join rest)%string
  end.

(** A line in normal form: it has a word, and it is its words separated
    by single spaces (no leading, trailing or repeated space, no tab or
    line break). *)
Definition normal (line : string) : Prop :=
  Display.words line <> [] /\ line = join (Display.words line).

Definition first_word (line : string) : string := hd "" (Display.words line).

(** Consecutive lines of which the second starts with a word that did not
    fit at the end of the first. *)
Fixpoint broken_when_full (lines : list string) : Prop :=
  match lines with
  | a :: (b :: _) as rest =>
      Display.chars_per_line
      < String.length a + String.length (first_word b) + 1
      /\ broken_when_full rest
  | _ => True
  end.

Definition wordlike (w : string) : Prop := empty w = false /\ spacefree w.

Lemma join_snoc ws w :
  ws <> [] -> join (ws ++ [w]) = (join ws ++ " " ++ w)%string.
Proof.
  induction ws as [|x ws IH]; intros Hne; [congruence|].
  destruct ws as [|y ws]; [reflexivity|].
  change (join ((x :: y :: ws) ++ [w]))
    with (x ++ " " ++ join ((y :: ws) ++ [w]))%string.
  rewrite IH by discriminate.
  change (join (x :: y :: ws)) with (x ++ " " ++ join (y :: ws))%string.
  rewrite !append_assoc. reflexivity.
Qed.

Lemma words_append_word line w :
  wordlike w ->
  Display.words (line ++ " " ++ w) = Display.words line ++ [w].
Proof.
  intros [Hne Hw]. unfold Display.words at 1. cbn [append].
  rewrite extract_at_space. fold (Display.words line). fold (Display.words w).
  now rewrite (words_of_word w Hne Hw).
Qed.

Lemma normal_word w : wordlike w -> normal w.
Proof.
  intros [Hne Hw]. unfold normal. rewrite words_of_word by assumption.
  split; [discriminate | reflexivity].
Qed.

Lemma normal_append_word line w :
  normal line -> wordlike w -> normal (line ++ " " ++ w)%string.
Proof.
  intros [Hne Hjoin] Hw. unfold normal. rewrite words_append_word by exact Hw.
  split.
  - intros E. apply app_eq_nil in E. destruct E; discriminate.
  - rewrite join_snoc by exact Hne. now rewrite <- Hjoin.
Qed.

Lemma first_word_append_word line w :
  normal line -> wordlike w -> first_word (line ++ " " ++ w) = first_word line.
Proof.
  intros [Hne _] Hw. unfold first_word. rewrite words_append_word by exact Hw.
  destruct (Display.words line); [congruence | reflexivity].
Qed.

Lemma broken_when_full_last lines : forall x y,
  first_word x = first_word y ->
  broken_when_full (lines ++ [x]) -> broken_when_full (lines ++ [y]).
Proof.
  induction lines as [|a lines IH]; intros x y Hxy H; [exact I|].
  destruct lines as [|b lines].
  - cbn in *. rewrite <- Hxy. exact H.
  - cbn [app broken_when_full] in *. destruct H as [Hab H].
    split; [exact Hab | now apply (IH x y)].
Qed.

Lemma broken_when_full_snoc lines : forall a b,
  Display.chars_per_line < String.length a + String.length (first_word b) + 1 ->
  broken_when_full (lines ++ [a]) -> broken_when_full ((lines ++ [a]) ++ [b]).
Proof.
  induction lines as [|x lines IH]; intros a b Hab H.
  - cbn. auto.
  - destruct lines as [|y lines].
    + cbn in *. tauto.
    + cbn [app broken_when_full] in *. destruct H as [Hxy H].
      split; [exact Hxy | now apply IH].
Qed.

Lemma broken_when_full_firstn n : forall lines,
  broken_when_full lines -> broken_when_full (firstn n lines).
Proof.
  induction n as [|n IH]; intros [|a [|b lines]] H; cbn [firstn]; try exact I.
  - destruct n; exact I.
  - destruct H as [Hab H]. specialize (IH (b :: lines) H).
    destruct n as [|n]; [exact I|]. cbn [firstn] in *. split; assumption.
Qed.

(** The invariant of the loop of [wrapText], started on an empty vector. *)
Definition wrapping (st : list string * string) : Prop :=
  (fst st = [] /\ snd st = ""%string) \/
  (normal (snd st) /\ Forall normal (fst st)
   /\ broken_when_full (fst st ++ [snd st])).

Lemma place_wrapping st w : wordlike w -> wrapping st -> wrapping (Display.place st w).
Proof.
  intros Hw Hst. destruct st as [lines current_line]. right.
  unfold wrapping in Hst. cbn [fst snd] in Hst.
  destruct Hst as [[-> ->]|(Hcur & Hlines & Hfull)].
  - cbn. split; [now apply normal_word | split; [constructor | exact I]].
  - unfold Display.place.
    assert (Hne : empty current_line = false).
    { destruct current_line; [|reflexivity]. destruct Hcur as [Hcur _].
      now contradiction Hcur. }
    rewrite Hne.
    destruct (Nat.leb_spec
                (String.length current_line + String.length w + 1)
                Display.chars_per_line) as [Hfit|Hover]; cbn [fst snd].
    + split; [now apply normal_append_word | split; [exact Hlines|]].
      apply (broken_when_full_last lines current_line); [|exact Hfull].
      symmetry. now apply first_word_append_word.
    + split; [now apply normal_word | split].
      * apply Forall_app. split; [exact Hlines | now constructor].
      * apply broken_when_full_snoc; [|exact Hfull].
        unfold first_word. destruct Hw as [Hw1 Hw2].
        rewrite words_of_word by assumption. exact Hover.
Qed.

Lemma fold_place_wrapping ws : forall st,
  Forall wordlike ws -> wrapping st -> wrapping (fold_left Display.place ws st).
Proof.
  induction ws as [|w ws IH]; intros st Hws Hst; [exact Hst|].
  inversion Hws as [|w' ws' Hw Hrest]; subst. cbn [fold_left].
  apply IH; [exact Hrest | now apply place_wrapping].
Qed.

Lemma layout_wrapping text :
  Forall normal (Display.layout text [])
  /\ broken_when_full (Display.layout text []).
Proof.
  unfold Display.layout.
  pose proof (fold_place_wrapping (Display.words text) ([], ""%string)
                (extract_words "" text (fun d (H : In d []) => match H with end))
                (or_introl (conj eq_refl eq_refl))) as H.
  destruct (fold_left Display.place (Display.words text) ([], ""%string))
    as [lines current_line].
  unfold wrapping in H. cbn [fst snd] in H.
  destruct H as [[-> ->]|(Hcur & Hlines & Hfull)].
  - cbn. split; [constructor | exact I].
  - assert (Hne : empty current_line = false).
    { destruct current_line; [|reflexivity]. destruct Hcur as [Hcur _].
      now contradiction Hcur. }
    rewrite Hne. cbn [negb]. split; [|exact Hfull].
    apply Forall_app. split; [exact Hlines | now constructor].
Qed.

(** The lines laid out hold the words of the text. *)
Lemma layout_words text :
  flat_map Display.words (Display.layout text []) = Display.words text.
Proof.
  unfold Display.layout.
  pose proof (place_keeps_words (Display.words text) [] ""
                (extract_words "" text (fun d (H : In d []) => match H with end)))
    as H.
  destruct (fold_left Display.place (Display.words text) ([], ""))
    as [lines current_line].
  cbn [fst snd flat_map app] in H.
  destruct (empty current_line) eqn:E; cbn [negb].
  - apply empty_true_iff in E. subst. cbn in H. now rewrite app_nil_r in H.
  - rewrite flat_map_app. cbn [flat_map]. now rewrite app_nil_r.
Qed.

Lemma extract_nil_iff text : forall word,
  Display.extract word text = []
  <-> word = ""%string
      /\ Forall (fun c => Display.isspace c = true) (list_ascii_of_string text).
Proof.
  induction text as [|c text IH]; intros word;
    cbn [Display.extract list_ascii_of_string].
  - destruct word; cbn; split; try discriminate; auto.
    intros [? _]. discriminate.
  - destruct (Display.isspace c) eqn:Hc.
    + destruct word as [|d word]; cbn [empty].
      * rewrite IH. split; intros [H1 H2]; split; auto.
        now inversion H2.
      * split; [discriminate | intros [? _]; discriminate].
    + rewrite IH. split.
      * intros [H _]. destruct word; discriminate.
      * intros [_ H]. inversion H; congruence.
Qed.

End WrappedLines.

(** The display is blank exactly for a text made of space characters only
    (in particular for the empty text). *)
Theorem showText_blank_iff_spaces (text : string) :
  Display.showText text = []
  <-> Forall (fun c => Display.isspace c = true) (list_ascii_of_string text).
Proof.
  unfold Display.showText. rewrite Display.wrapText_firstn.
  assert (Hw : Display.words text = []
               <-> Forall (fun c => Display.isspace c = true)
                          (list_ascii_of_string text)).
  { unfold Display.words. rewrite extract_nil_iff. tauto. }
  rewrite <- Hw. split.
  - intros H. rewrite <- layout_words.
    destruct (Display.layout text []); [reflexivity | discriminate].
  - intros H. unfold Display.layout. rewrite H. reflexivity.
Qed.

(** Every line shown is in normal form: it is not empty and consists of
    its words separated by single spaces, whatever white space the text
    had between them. *)
Theorem showText_lines_normal (text : string) :
  Forall normal (Display.showText text).
Proof.
  unfold Display.showText. rewrite Display.wrapText_firstn.
  destruct (layout_wrapping text) as [H _].
  rewrite Forall_forall in *. intros line Hin. apply H.
  rewrite <- (firstn_skipn 8). apply in_or_app. now left.
Qed.

(** The wrapping is greedy: a line is ended only when the next word does
    not fit. For two consecutive lines, the first line, a space and the
    first word of the second are more than 21 characters. *)
Theorem wrapText_breaks_only_when_full (text : string) :
  broken_when_full (Display.layout text []) /\
  broken_when_full (Display.showText text).
Proof.
  destruct (layout_wrapping text) as [_ H]. split; [exact H|].
  unfold Display.showText. rewrite Display.wrapText_firstn.
  now apply broken_when_full_firstn.
Qed.

(** ** The power mode as a function of the trace *)

(** A sample outside the band: below the low or above the high
    threshold. *)
Definition decisive (battery_level : float) : bool :=
  (battery_level <? Power.low_threshold)%float
  || (Power.high_threshold <? battery_level)%float.

(** The most recent sample outside the band, if any. *)
Definition last_decisive (trace : list float) : option float :=
  find decisive (rev trace).

(** The mode depends on the most recent sample outside the band only: it
    is Low when that sample was below 0.20, Normal when it was above 0.30
    or when no sample has left the band; samples inside the band can be
    left out of the trace. The connectivity task sleeps 300 s in the first
    case and 60 s in the others. *)
Theorem power_mode_is_last_decisive_sample (trace : list float) :
  Power.mode_after trace
    = match last_decisive trace with
      | Some battery_level => (battery_level <? Power.low_threshold)%float
      | None => Power.Normal
      end /\
  Power.mode_after (filter decisive trace) = Power.mode_after trace /\
  forall (l : Connectivity.links) (history : list string) (st : list Storage.record),
    Connectivity.slept
      (Connectivity.connectivityThread l (Power.mode_after trace) history st)
    = match last_decisive trace with
      | Some battery_level =>
          if (battery_level <? Power.low_threshold)%float then 300 else 60
      | None => 60
      end.
Proof.
  assert (Hmode : Power.mode_after trace
                  = match last_decisive trace with
                    | Some battery_level =>
                        (battery_level <? Power.low_threshold)%float
                    | None => Power.Normal
                    end).
  { unfold last_decisive, Power.mode_after.
    induction trace as [|x trace IH] using rev_ind; [reflexivity|].
    rewrite fold_left_snoc, rev_app_distr. cbn [rev app find].
    unfold decisive at 1, Power.powerManagementThread at 1.
    destruct (x <? Power.low_threshold)%float eqn:E1; cbn [orb];
      [now rewrite E1|].
    destruct (Power.high_threshold <? x)%float eqn:E2;
      [now rewrite E1 | exact IH]. }
  split; [exact Hmode|]. split.
  - clear Hmode. unfold Power.mode_after.
    induction trace as [|x trace IH] using rev_ind; [reflexivity|].
    rewrite filter_app, fold_left_snoc. cbn [filter].
    unfold decisive at 2, Power.powerManagementThread at 2.
    destruct (x <? Power.low_threshold)%float eqn:E1;
      [|destruct (Power.high_threshold <? x)%float eqn:E2]; cbn [orb].
    + rewrite fold_left_snoc. unfold Power.powerManagementThread at 1.
      now rewrite E1.
    + rewrite fold_left_snoc. unfold Power.powerManagementThread at 1.
      now rewrite E1, E2.
    + rewrite app_nil_r. exact IH.
  - intros l history st. rewrite Hmode. unfold Connectivity.connectivityThread.
    destruct (last_decisive trace) as [x|];
      [destruct (x <? Power.low_threshold)%float|];
      destruct (Connectivity.wifi_isEnabled l && Connectivity.wifi_isConnected l);
      reflexivity.
Qed.

(** ** The display driver ([Display]'s constructor, destructor, I2C and
    command functions) *)

Module Oled.

Local Open Scope Z_scope.

(** What the driver does to the outside: its system calls and the lines it
    writes to [std::cerr]. *)
Inductive effect : Type :=
| sys_open
| sys_ioctl (fd : Z)
| sys_close (fd : Z)
| sys_write (fd : Z) (buffer : list Z)
| cerr (line : string).

(** What the kernel answers: the value of [open], of [ioctl], and of the
    [n]-th [write]. *)
Record kernel : Type := mkKernel {
  open_returns : Z;
  ioctl_returns : Z;
  write_returns : nat -> Z
}.

Record Display : Type := mkDisplay {
  width : Z;
  height : Z;
  brightness : Z;
  is_inverted : bool;
  i2c_fd : Z
}.

(** The object and the effects so far, oldest first. *)
Record world : Type := mkWorld {
  display : Display;
  done : list effect
}.

Definition emit (e : effect) (w : world) : world :=
  mkWorld (display w) (done w ++ [e]).

Definition set_i2c_fd (fd : Z) (w : world) : world :=
  let d := display w in
  mkWorld (mkDisplay (width d) (height d) (brightness d) (is_inverted d) fd)
          (done w).

Definition set_brightness (b : Z) (w : world) : world :=
  let d := display w in
  mkWorld (mkDisplay (width d) (height d) b (is_inverted d) (i2c_fd d)) (done w).

Definition set_is_inverted (b : bool) (w : world) : world :=
  let d := display w in
  mkWorld (mkDisplay (width d) (height d) (brightness d) b (i2c_fd d)) (done w).

Definition is_write (e : effect) : bool :=
  match e with
  | sys_write _ _ => true
  | _ => false
  end.

(** The conversion of an [int] argument to [uint8_t]. *)
Definition uint8 (z : Z) : Z := z mod 256.

Definition SSD1306_COMMAND : Z := 0x00.
Definition SSD1306_DATA : Z := 0x40.
Definition SSD1306_DISPLAYOFF : Z := 0xAE.
Definition SSD1306_DISPLAYON : Z := 0xAF.
Definition SSD1306_SETCONTRAST : Z := 0x81.
Definition SSD1306_NORMALDISPLAY : Z := 0xA6.
Definition SSD1306_INVERTDISPLAY : Z := 0xA7.

Section Driver.
Variable k : kernel.

(** [Display::initializeI2C] *)
Definition initializeI2C (w : world) : bool * world :=
  let fd := open_returns k in
  let w := set_i2c_fd fd (emit sys_open w) in
  if fd <? 0 then (false, emit (cerr "Failed to open I2C device") w)
  else
    let w := emit (sys_ioctl fd) w in
    if ioctl_returns k <? 0 then
      let w := emit (cerr "Failed to set I2C slave address") w in
      (false, set_i2c_fd (-1) (emit (sys_close fd) w))
    else (true, w).

(** [Display::closeI2C] *)
Definition closeI2C (w : world) : world :=
  let fd := i2c_fd (display w) in
  if 0 <=? fd then set_i2c_fd (-1) (emit (sys_close fd) w) else w.

(** The two-byte [write] of [sendCommand] and [sendData]: a result other
    than 2 is reported and otherwise ignored. *)
Definition send (control : Z) (message : string) (byte : Z) (w : world) : world :=
  let n := length (filter is_write (done w)) in
  let w := emit (sys_write (i2c_fd (display w)) [control; byte]) w in
  if negb (write_returns k n =? 2) then emit (cerr message) w else w.

(** [Display::sendCommand] and [Display::sendData], on a [uint8_t]. *)
Definition sendCommand (command : Z) : world -> world :=
  send SSD1306_COMMAND "Error writing command to display" command.

Definition sendData (data : Z) : world -> world :=
  send SSD1306_DATA "Error writing data to display" data.

(** [Display::clear], [Display::update], [Display::showMultilineText] and
    [Display::drawProgressBar] have empty bodies. *)
Definition clear (w : world) : world := w.
Definition update (w : world) : world := w.
Definition showMultilineText (lines : list string) (w : world) : world := w.
Definition drawProgressBar (percentage : float) (w : world) : world := w.

(** [Display::showText] *)
Definition showText (text : string) (w : world) : world :=
  showMultilineText (Display.wrapText text []) w.

(** [Display::setBrightness] *)
Definition setBrightness (new_brightness : Z) (w : world) : world :=
  let w := set_brightness new_brightness w in
  let w := sendCommand SSD1306_SETCONTRAST w in
  sendCommand (uint8 (brightness (display w))) w.

(** [Display::setInvertDisplay] *)
Definition setInvertDisplay (invert : bool) (w : world) : world :=
  let w := set_is_inverted invert w in
  sendCommand (if invert then SSD1306_INVERTDISPLAY else SSD1306_NORMALDISPLAY) w.

(** The constructor: [false] when it throws [std::runtime_error]. *)
Definition construct (width height : Z) : bool * world :=
  let w := mkWorld (mkDisplay width height 255 false (-1)) [] in
  let (ok, w) := initializeI2C w in
  if negb ok then (false, w)
  else
    let w := sendCommand SSD1306_DISPLAYOFF w in
    let w := sendCommand SSD1306_SETCONTRAST w in
    let w := sendCommand (uint8 (brightness (display w))) w in
    let w := sendCommand SSD1306_NORMALDISPLAY w in
    let w := sendCommand SSD1306_DISPLAYON w in
    (true, update (clear w)).

(** A call of a public member function. *)
Inductive call : Type :=
| Clear
| ShowText (text : string)
| ShowMultilineText (lines : list string)
| DrawProgressBar (percentage : float)
| Update
| SetBrightness (brightness : Z)
| SetInvertDisplay (invert : bool).

Definition apply (w : world) (c : call) : world :=
  match c with
  | Clear => clear w
  | ShowText text => showText text w
  | ShowMultilineText lines => showMultilineText lines w
  | DrawProgressBar percentage => drawProgressBar percentage w
  | Update => update w
  | SetBrightness b => setBrightness b w
  | SetInvertDisplay invert => setInvertDisplay invert w
  end.

(** The life of an object: construction, the given calls, destruction. A
    constructor that throws is followed by nothing. *)
Definition life (width height : Z) (calls : list call) : list effect :=
  let (ok, w) := construct width height in
  if ok then done (closeI2C (fold_left apply calls w)) else done w.

End Driver.

(** The buffers written, in order. *)
Definition frames (effects : list effect) : list (list Z) :=
  flat_map (fun e => match e with sys_write _ buffer => [buffer] | _ => [] end)
           effects.

(** The command bytes a call puts on the bus. *)
Definition commands (c : call) : list Z :=
  match c with
  | SetBrightness b => [SSD1306_SETCONTRAST; uint8 b]
  | SetInvertDisplay invert =>
      [if invert then SSD1306_INVERTDISPLAY else SSD1306_NORMALDISPLAY]
  | _ => []
  end.

End Oled.

Section OledFacts.

Local Open Scope Z_scope.

Variable k : Oled.kernel.

(** Effects that neither open nor close anything: writes to [fd] and
    lines on [std::cerr]. *)
Definition on_descriptor (fd : Z) (effects : list Oled.effect) : Prop :=
  Forall (fun e => match e with
                   | Oled.sys_write fd' _ => fd' = fd
                   | Oled.cerr _ => True
                   | _ => False
                   end) effects.

Definition command_frame (command : Z) : list Z := [Oled.SSD1306_COMMAND; command].

(** [w'] continues [w]: same descriptor, and further effects that are
    writes of the given commands on it. *)
Definition continues (w w' : Oled.world) (commands : list Z) : Prop :=
  Oled.i2c_fd (Oled.display w') = Oled.i2c_fd (Oled.display w) /\
  exists tail,
    Oled.done w' = Oled.done w ++ tail /\
    on_descriptor (Oled.i2c_fd (Oled.display w)) tail /\
    Oled.frames tail = map command_frame commands.

Lemma continues_refl w : continues w w [].
Proof.
  split; [reflexivity|]. exists []. rewrite app_nil_r.
  repeat split. constructor.
Qed.

Lemma continues_trans w1 w2 w3 c12 c23 :
  continues w1 w2 c12 -> continues w2 w3 c23 -> continues w1 w3 (c12 ++ c23).
Proof.
  intros [Hfd12 (t12 & Hd12 & Hq12 & Hf12)] [Hfd23 (t23 & Hd23 & Hq23 & Hf23)].
  split; [congruence|]. exists (t12 ++ t23). repeat split.
  - rewrite Hd23, Hd12. now rewrite app_assoc.
  - apply Forall_app. split; [exact Hq12|]. now rewrite <- Hfd12.
  - unfold Oled.frames in *. now rewrite flat_map_app, map_app, Hf12, Hf23.
Qed.

Lemma sendCommand_continues command w :
  continues w (Oled.sendCommand k command w) [command].
Proof.
  unfold Oled.sendCommand, Oled.send.
  destruct (negb (Oled.write_returns k _ =? 2)); (split; [reflexivity|]).
  - eexists [_; _]. cbn [Oled.done Oled.emit]. rewrite <- app_assoc.
    repeat split. repeat constructor.
  - eexists [_]. cbn [Oled.done Oled.emit]. repeat split. repeat constructor.
Qed.

Lemma apply_continues w c : continues w (Oled.apply k w c) (Oled.commands c).
Proof.
  destruct c as [|text|lines|pct| |b|invert]; cbn [Oled.apply Oled.commands];
    try apply continues_refl.
  - unfold Oled.setBrightness.
    set (w1 := Oled.set_brightness b w).
    assert (H01 : continues w w1 [])
      by (split; [reflexivity|]; exists []; cbn; rewrite app_nil_r;
          repeat split; constructor).
    pose proof (sendCommand_continues Oled.SSD1306_SETCONTRAST w1) as H12.
    pose proof (sendCommand_continues
                  (Oled.uint8 (Oled.brightness
                     (Oled.display (Oled.sendCommand k Oled.SSD1306_SETCONTRAST w1))))
                  (Oled.sendCommand k Oled.SSD1306_SETCONTRAST w1)) as H23.
    assert (Hb : Oled.brightness
                   (Oled.display (Oled.sendCommand k Oled.SSD1306_SETCONTRAST w1)) = b).
    { unfold Oled.sendCommand, Oled.send.
      destruct (negb (Oled.write_returns k _ =? 2)); reflexivity. }
    rewrite Hb in H23 at 2.
    exact (continues_trans _ _ _ _ _ H01 (continues_trans _ _ _ _ _ H12 H23)).
  - unfold Oled.setInvertDisplay.
    set (w1 := Oled.set_is_inverted invert w).
    assert (H01 : continues w w1 [])
      by (split; [reflexivity|]; exists []; cbn; rewrite app_nil_r;
          repeat split; constructor).
    exact (continues_trans _ _ _ _ _ H01 (sendCommand_continues _ w1)).
Qed.

Lemma calls_continue calls : forall w,
  continues w (fold_left (Oled.apply k) calls w) (flat_map Oled.commands calls).
Proof.
  induction calls as [|c calls IH]; intros w; [apply continues_refl|].
  cbn [fold_left flat_map].
  exact (continues_trans _ _ _ _ _ (apply_continues w c) (IH _)).
Qed.

End OledFacts.

Section OledLife.

Local Open Scope Z_scope.

(** The commands of the constructor. *)
Definition init_commands : list Z :=
  [Oled.SSD1306_DISPLAYOFF; Oled.SSD1306_SETCONTRAST; 255;
   Oled.SSD1306_NORMALDISPLAY; Oled.SSD1306_DISPLAYON].

(** The state in which [initializeI2C] returns [true]. *)
Definition opened (k : Oled.kernel) (width height : Z) : Oled.world :=
  Oled.mkWorld (Oled.mkDisplay width height 255 false (Oled.open_returns k))
               [Oled.sys_open; Oled.sys_ioctl (Oled.open_returns k)].

Lemma construct_succeeds k width height :
  0 <= Oled.open_returns k -> 0 <= Oled.ioctl_returns k ->
  exists w,
    Oled.construct k width height = (true, w) /\
    continues (opened k width height) w init_commands.
Proof.
  intros Hfd Hio. unfold Oled.construct, Oled.initializeI2C.
  replace (Oled.open_returns k <? 0) with false by (symmetry; apply Z.ltb_ge; lia).
  replace (Oled.ioctl_returns k <? 0) with false by (symmetry; apply Z.ltb_ge; lia).
  cbn [negb]. eexists. split; [reflexivity|].
  unfold Oled.update, Oled.clear.
  change (Oled.set_i2c_fd (Oled.open_returns k)
            (Oled.emit Oled.sys_open
               (Oled.mkWorld (Oled.mkDisplay width height 255 false (-1)) [])))
    with (Oled.mkWorld
            (Oled.mkDisplay width height 255 false (Oled.open_returns k))
            [Oled.sys_open]).
  change (Oled.emit (Oled.sys_ioctl (Oled.open_returns k))
            (Oled.mkWorld
               (Oled.mkDisplay width height 255 false (Oled.open_returns k))
               [Oled.sys_open]))
    with (opened k width height).
  set (w0 := opened k width height).
  set (w1 := Oled.sendCommand k Oled.SSD1306_DISPLAYOFF w0).
  set (w2 := Oled.sendCommand k Oled.SSD1306_SETCONTRAST w1).
  assert (Hb : Oled.uint8 (Oled.brightness (Oled.display w2)) = 255).
  { subst w2 w1 w0. unfold Oled.sendCommand, Oled.send.
    repeat match goal with
           | |- context [negb (?r =? 2)] => destruct (negb (r =? 2))
           end; reflexivity. }
  rewrite Hb.
  pose proof (sendCommand_continues k Oled.SSD1306_DISPLAYOFF w0) as H1.
  pose proof (sendCommand_continues k Oled.SSD1306_SETCONTRAST w1) as H2.
  pose proof (sendCommand_continues k 255 w2) as H3.
  pose proof (sendCommand_continues k Oled.SSD1306_NORMALDISPLAY
                (Oled.sendCommand k 255 w2)) as H4.
  pose proof (sendCommand_continues k Oled.SSD1306_DISPLAYON
                (Oled.sendCommand k Oled.SSD1306_NORMALDISPLAY
                   (Oled.sendCommand k 255 w2))) as H5.
  fold w1 in H2. fold w2 in H3.
  exact (continues_trans _ _ _ _ _ H1
           (continues_trans _ _ _ _ _ H2
              (continues_trans _ _ _ _ _ H3
                 (continues_trans _ _ _ _ _ H4 H5)))).
Qed.

(** The three ways [initializeI2C] can go. *)
Lemma display_descriptor_discipline_cases k :
  ((Oled.open_returns k <? 0) = true /\ True) \/
  ((Oled.open_returns k <? 0) = false /\ (Oled.ioctl_returns k <? 0) = true) \/
  ((Oled.open_returns k <? 0) = false /\ (Oled.ioctl_returns k <? 0) = false).
Proof.
  destruct (Oled.open_returns k <? 0), (Oled.ioctl_returns k <? 0); auto.
Qed.

End OledLife.

(** Over the life of a [Display], whatever the kernel answers and whatever
    member functions are called: a descriptor that [open] returned is
    closed exactly once, after the last write (by the destructor, or by
    [initializeI2C] when [ioctl] fails and the constructor throws);
    every write goes to that descriptor; and when [open] fails nothing is
    written or closed. *)
Theorem display_descriptor_closed_once (k : Oled.kernel) (width height : Z)
  (calls : list Oled.call) :
  let fd := Oled.open_returns k in
  let effects := Oled.life k width height calls in
  ((fd < 0)%Z ->
     effects = [Oled.sys_open; Oled.cerr "Failed to open I2C device"]) /\
  ((0 <= fd)%Z -> (Oled.ioctl_returns k < 0)%Z ->
     effects = [Oled.sys_open; Oled.sys_ioctl fd;
                Oled.cerr "Failed to set I2C slave address"; Oled.sys_close fd]) /\
  ((0 <= fd)%Z -> (0 <= Oled.ioctl_returns k)%Z ->
     exists body,
       effects = [Oled.sys_open; Oled.sys_ioctl fd] ++ body ++ [Oled.sys_close fd]
       /\ on_descriptor fd body).
Proof.
  cbv zeta. split; [|split].
  - intros Hfd. unfold Oled.life, Oled.construct, Oled.initializeI2C.
    replace (Oled.open_returns k <? 0)%Z with true
      by (symmetry; apply Z.ltb_lt; lia).
    reflexivity.
  - intros Hfd Hio. unfold Oled.life, Oled.construct, Oled.initializeI2C.
    replace (Oled.open_returns k <? 0)%Z with false
      by (symmetry; apply Z.ltb_ge; lia).
    replace (Oled.ioctl_returns k <? 0)%Z with true
      by (symmetry; apply Z.ltb_lt; lia).
    reflexivity.
  - intros Hfd Hio. unfold Oled.life.
    destruct (construct_succeeds k width height Hfd Hio) as (w & -> & Hw).
    pose proof (continues_trans _ _ _ _ _ Hw (calls_continue k calls w))
      as [Hsame (body & Hdone & Hbody & _)].
    cbn [opened Oled.display Oled.i2c_fd Oled.done] in *.
    exists body. split; [|exact Hbody].
    unfold Oled.closeI2C. rewrite Hsame.
    replace (0 <=? Oled.open_returns k)%Z with true
      by (symmetry; apply Z.leb_le; lia).
    cbn [Oled.done Oled.set_i2c_fd Oled.emit]. rewrite Hdone.
    now rewrite <- app_assoc.
Qed.

(** A display that initialises, is dimmed and is destroyed, on a bus where
    every write fails. *)
Lemma display_descriptor_closed_once_example :
  exists body,
    Oled.life (Oled.mkKernel 3 0 (fun _ => (-1)%Z)) 128 64 [Oled.SetBrightness 40]
    = [Oled.sys_open; Oled.sys_ioctl 3] ++ body ++ [Oled.sys_close 3]
    /\ on_descriptor 3 body.
Proof.
  apply (display_descriptor_closed_once
           (Oled.mkKernel 3 0 (fun _ => (-1)%Z)) 128 64 [Oled.SetBrightness 40]);
    cbn; lia.
Defined.

(** When the display initialises, the frames on the bus are those of the
    five commands of the constructor followed by those of the calls, each
    two bytes long, whether or not earlier writes succeeded: a failed write
    is reported and never stops or repeats anything. The contrast is sent
    modulo 256: [setBrightness 256] darkens the display. When the display
    does not initialise nothing is written. *)
Theorem display_frames_on_the_bus (k : Oled.kernel) (width height : Z)
  (calls : list Oled.call) :
  let effects := Oled.life k width height calls in
  ((0 <= Oled.open_returns k)%Z -> (0 <= Oled.ioctl_returns k)%Z ->
     Oled.frames effects
     = map command_frame (init_commands ++ flat_map Oled.commands calls)) /\
  ((Oled.open_returns k < 0)%Z \/ (Oled.ioctl_returns k < 0)%Z ->
     Oled.frames effects = []) /\
  Forall (Forall (fun byte => (0 <= byte < 256)%Z)) (Oled.frames effects) /\
  (forall b, Oled.commands (Oled.SetBrightness (b + 256))
             = Oled.commands (Oled.SetBrightness b)).
Proof.
  cbv zeta.
  assert (Hok : (0 <= Oled.open_returns k)%Z -> (0 <= Oled.ioctl_returns k)%Z ->
                Oled.frames (Oled.life k width height calls)
                = map command_frame (init_commands ++ flat_map Oled.commands calls)).
  { intros Hfd Hio. unfold Oled.life.
    destruct (construct_succeeds k width height Hfd Hio) as (w & -> & Hw).
    pose proof (continues_trans _ _ _ _ _ Hw (calls_continue k calls w))
      as [Hsame (body & Hdone & _ & Hframes)].
    cbn [opened Oled.display Oled.i2c_fd Oled.done] in *.
    unfold Oled.closeI2C. rewrite Hsame.
    replace (0 <=? Oled.open_returns k)%Z with true
      by (symmetry; apply Z.leb_le; lia).
    cbn [Oled.done Oled.set_i2c_fd Oled.emit]. rewrite Hdone.
    unfold Oled.frames in *. rewrite !flat_map_app, Hframes. cbn.
    now rewrite app_nil_r. }
  assert (Hko : (Oled.open_returns k < 0)%Z \/ (Oled.ioctl_returns k < 0)%Z ->
                Oled.frames (Oled.life k width height calls) = []).
  { intros H.
    destruct (display_descriptor_discipline_cases k) as [Hc|[Hc|Hc]];
      unfold Oled.life, Oled.construct, Oled.initializeI2C;
      destruct Hc as [E1 E2]; rewrite ?E1, ?E2; try reflexivity.
    apply Z.ltb_ge in E1, E2. lia. }
  split; [exact Hok|]. split; [exact Hko|]. split.
  - destruct (Z_lt_le_dec (Oled.open_returns k) 0) as [Hfd|Hfd];
      [rewrite (Hko (or_introl Hfd)); constructor|].
    destruct (Z_lt_le_dec (Oled.ioctl_returns k) 0) as [Hio|Hio];
      [rewrite (Hko (or_intror Hio)); constructor|].
    rewrite Hok by assumption. apply Forall_map, Forall_app. split.
    + repeat constructor; cbv; congruence.
    + apply Forall_flat_map, Forall_forall. intros c _.
      destruct c; cbn [Oled.commands]; repeat constructor;
        try (cbv; congruence).
      * apply Z.mod_pos_bound. reflexivity.
      * apply Z.mod_pos_bound. reflexivity.
      * destruct invert; cbv; congruence.
      * destruct invert; cbv; congruence.
  - intros b. cbn [Oled.commands]. unfold Oled.uint8.
    replace (b + 256)%Z with (b + 1 * 256)%Z by lia.
    now rewrite Z.mod_add.
Qed.

(** A display that initialises on a bus where every write fails, set to
    brightness 256 and inverted. *)
Lemma display_frames_on_the_bus_example :
  Oled.frames
    (Oled.life (Oled.mkKernel 3 0 (fun _ => (-1)%Z)) 128 64
       [Oled.SetBrightness 256; Oled.ShowText "hello"; Oled.SetInvertDisplay true])
  = [[0; 0xAE]; [0; 0x81]; [0; 255]; [0; 0xA6]; [0; 0xAF];
     [0; 0x81]; [0; 0]; [0; 0xA7]]%Z.
Proof.
  apply (display_frames_on_the_bus (Oled.mkKernel 3 0 (fun _ => (-1)%Z)) 128 64
           [Oled.SetBrightness 256; Oled.ShowText "hello";
            Oled.SetInvertDisplay true]); cbn; lia.
Defined.

(** ** The audio driver ([AudioCapture]) *)

Module Pcm.

Local Open Scope Z_scope.

(** The calls of [initializeALSA], in the order of the source. *)
Inductive step : Type :=
| snd_pcm_open
| snd_pcm_hw_params_any
| snd_pcm_hw_params_set_access
| snd_pcm_hw_params_set_format
| snd_pcm_hw_params_set_channels
| snd_pcm_hw_params_set_rate_near
| snd_pcm_hw_params
| snd_pcm_prepare.

Definition steps : list step :=
  [snd_pcm_open; snd_pcm_hw_params_any; snd_pcm_hw_params_set_access;
   snd_pcm_hw_params_set_format; snd_pcm_hw_params_set_channels;
   snd_pcm_hw_params_set_rate_near; snd_pcm_hw_params; snd_pcm_prepare].

(** What the driver does to the outside: a set-up call with its result,
    the other ALSA calls, and the lines written to the two streams. *)
Inductive effect : Type :=
| alsa (s : step) (err : Z)
| snd_pcm_close
| snd_pcm_readi (frames : Z)
| snd_pcm_recover (err : Z)
| cerr (line : string)
| cout (line : string).

(** What the ALSA library answers. [returns n s] is the result of call [s]
    in the [n]-th run of [initializeALSA], [rate_near n] the rate
    [snd_pcm_hw_params_set_rate_near] stores in that run; [readi n] is the
    result of the [n]-th [snd_pcm_readi] and [delivered n] the samples it
    puts in the buffer. *)
Record library : Type := mkLibrary {
  returns : nat -> step -> Z;
  rate_near : nat -> Z;
  readi : nat -> Z;
  delivered : nat -> list Z;
  snd_strerror : Z -> string
}.

(** The object. [gain] is a binary32 value; [capture_handle] is [None] for
    [nullptr]. *)
Record AudioCapture : Type := mkAudioCapture {
  capture_handle : option nat;
  sample_rate : Z;
  channels : Z;
  gain : spec_float
}.

Record world : Type := mkWorld {
  audio : AudioCapture;
  done : list effect
}.

Definition emit (e : effect) (w : world) : world :=
  mkWorld (audio w) (done w ++ [e]).

Definition set_capture_handle (h : option nat) (w : world) : world :=
  let a := audio w in
  mkWorld (mkAudioCapture h (sample_rate a) (channels a) (gain a)) (done w).

Definition set_sample_rate (r : Z) (w : world) : world :=
  let a := audio w in
  mkWorld (mkAudioCapture (capture_handle a) r (channels a) (gain a)) (done w).

Definition set_gain (g : spec_float) (w : world) : world :=
  let a := audio w in
  mkWorld (mkAudioCapture (capture_handle a) (sample_rate a) (channels a) g)
          (done w).

Definition is_open (e : effect) : bool :=
  match e with
  | alsa snd_pcm_open _ => true
  | _ => false
  end.

Definition is_readi (e : effect) : bool :=
  match e with
  | snd_pcm_readi _ => true
  | _ => false
  end.

(** Conversions between [int] and [unsigned int]. *)
Definition to_unsigned (z : Z) : Z := z mod 2 ^ 32.
Definition to_int (u : Z) : Z := if u <? 2 ^ 31 then u else u - 2 ^ 32.

(** [<<] of a number. *)
Definition show (z : Z) : string := NilZero.string_of_int (Z.to_int z).

Section Driver.
Variable lib : library.

(** One set-up call of run [n]: the call, and on a negative result the
    message and [false]. *)
Definition attempt (n : nat) (s : step) (message : string) (w : world)
  : bool * world :=
  let err := returns lib n s in
  let w := emit (alsa s err) w in
  if err <? 0 then
    (false, emit (cerr (message ++ snd_strerror lib err)%string) w)
  else (true, w).

(** [AudioCapture::initializeALSA]. [snd_pcm_open] stores the handle when
    it succeeds and leaves it as it was otherwise. *)
Definition initializeALSA (w : world) : bool * world :=
  let n := length (filter is_open (done w)) in
  let (ok, w) := attempt n snd_pcm_open "Cannot open audio device: " w in
  if negb ok then (false, w) else
  let w := set_capture_handle (Some n) w in
  let (ok, w) :=
    attempt n snd_pcm_hw_params_any "Cannot configure this PCM device: " w in
  if negb ok then (false, w) else
  let (ok, w) :=
    attempt n snd_pcm_hw_params_set_access "Cannot set access type: " w in
  if negb ok then (false, w) else
  let (ok, w) :=
    attempt n snd_pcm_hw_params_set_format "Cannot set sample format: " w in
  if negb ok then (false, w) else
  let (ok, w) :=
    attempt n snd_pcm_hw_params_set_channels "Cannot set channel count: " w in
  if negb ok then (false, w) else
  let (ok, w) :=
    attempt n snd_pcm_hw_params_set_rate_near "Cannot set sample rate: " w in
  if negb ok then (false, w) else
  let actual_rate := rate_near lib n in
  let w :=
    if negb (actual_rate =? to_unsigned (sample_rate (audio w))) then
      set_sample_rate (to_int actual_rate)
        (emit (cout ("Warning: actual sample rate (" ++ show actual_rate
                     ++ ") differs from requested rate ("
                     ++ show (sample_rate (audio w)) ++ ")")%string) w)
    else w in
  let (ok, w) := attempt n snd_pcm_hw_params "Cannot set parameters: " w in
  if negb ok then (false, w) else
  let (ok, w) :=
    attempt n snd_pcm_prepare "Cannot prepare audio interface: " w in
  if negb ok then (false, w) else
  (true, w).

(** [AudioCapture::closeALSA] *)
Definition closeALSA (w : world) : world :=
  match capture_handle (audio w) with
  | Some _ => set_capture_handle None (emit snd_pcm_close w)
  | None => w
  end.

(** The constructor: [false] when it throws [std::runtime_error]. *)
Definition construct (sample_rate channels : Z) : bool * world :=
  initializeALSA
    (mkWorld (mkAudioCapture None sample_rate channels
                (binary_normalize 24 128 1 0 false)) []).

(** [AudioCapture::setGain] *)
Definition setGain (new_gain : spec_float) (w : world) : world :=
  set_gain new_gain w.

(** [AudioCapture::setSampleRate]: [false] when it throws. *)
Definition setSampleRate (new_rate : Z) (w : world) : bool * world :=
  if negb (new_rate =? sample_rate (audio w)) then
    initializeALSA (closeALSA (set_sample_rate new_rate w))
  else (true, w).

End Driver.

End Pcm.

(** ** Capturing a frame ([AudioCapture::captureAudio]) *)

Module Frame.

Local Open Scope Z_scope.

(** [float] is binary32: 24 bits of precision, exponents below 128. *)
Definition prec : Z := 24.
Definition emax : Z := 128.

(** The conversion of an integer of at most 24 bits to [float]. *)
Definition of_int (z : Z) : spec_float := binary_normalize prec emax z 0 false.

(** [static_cast<int16_t>] of a [float]: the value truncated towards zero,
    and no defined result when that is not an [int16_t] (or for an
    infinity or a NaN). *)
Definition to_int16 (value : spec_float) : option Z :=
  match value with
  | S754_zero _ => Some 0
  | S754_finite s m e =>
      let magnitude := if 0 <=? e then Z.pos m * 2 ^ e else Z.pos m / 2 ^ (- e) in
      let z := if s then - magnitude else magnitude in
      if (-32768 <=? z) && (z <=? 32767) then Some z else None
  | _ => None
  end.

(** The body of the gain loop on one sample. *)
Definition amplify (gain : spec_float) (sample : Z) : option Z :=
  let value := SFmul prec emax (of_int sample) gain in
  let value := if SFltb (of_int 32767) value then of_int 32767 else value in
  let value := if SFltb value (of_int (-32768)) then of_int (-32768) else value in
  to_int16 value.

(** The gain loop: no defined result as soon as one conversion has
    none. *)
Fixpoint amplify_all (gain : spec_float) (buffer : list Z) : option (list Z) :=
  match buffer with
  | [] => Some []
  | sample :: rest =>
      match amplify gain sample, amplify_all gain rest with
      | Some z, Some zs => Some (z :: zs)
      | _, _ => None
      end
  end.

(** [AudioBuffer] *)
Record AudioBuffer : Type := mkAudioBuffer {
  samples : list Z;
  sampleRate : Z;
  channels : Z
}.

(** How a call ends: it returns a buffer, it throws (the vector cannot
    have a negative size), or it has no defined behaviour (signed
    overflow, a conversion without result, a null handle). *)
Inductive outcome : Type :=
| Returned (buffer : AudioBuffer)
| Threw
| Undefined.

Definition in_int (z : Z) : bool := (- 2 ^ 31 <=? z) && (z <=? 2 ^ 31 - 1).

(** The conversion of an [int] to [size_t]. *)
Definition to_size_t (z : Z) : Z := z mod 2 ^ 64.

(** [AudioCapture::captureAudio]. The vector is value-initialised (zeros)
    and its allocation is taken to succeed; the [n]-th [snd_pcm_readi]
    overwrites the first [readi n] frames with what it delivers, and
    nothing when it fails. *)
Definition captureAudio (lib : Pcm.library) (duration_ms : Z) (w : Pcm.world)
  : outcome * Pcm.world :=
  let a := Pcm.audio w in
  let product := Pcm.sample_rate a * duration_ms in
  if negb (in_int product) then (Undefined, w) else
  let frames_to_capture := Z.quot product 1000 in
  let size := frames_to_capture * Pcm.channels a in
  if negb (in_int size) then (Undefined, w) else
  if size <? 0 then (Threw, w) else
  match Pcm.capture_handle a with
  | None => (Undefined, w)
  | Some _ =>
      let n := length (filter Pcm.is_readi (Pcm.done w)) in
      let err := Pcm.readi lib n in
      let w := Pcm.emit (Pcm.snd_pcm_readi frames_to_capture) w in
      let buffer :=
        firstn (Z.to_nat size)
          (firstn (Z.to_nat (err * Pcm.channels a)) (Pcm.delivered lib n)
           ++ repeat 0 (Z.to_nat size)) in
      let w :=
        if negb (err =? frames_to_capture) then
          if err <? 0 then
            Pcm.emit (Pcm.snd_pcm_recover err)
              (Pcm.emit
                 (Pcm.cerr ("Error reading from PCM device: "
                            ++ Pcm.snd_strerror lib err)%string) w)
          else
            Pcm.emit
              (Pcm.cerr ("Warning: read " ++ Pcm.show err
                         ++ " frames instead of "
                         ++ Pcm.show frames_to_capture)%string) w
        else w in
      let amplified :=
        if negb (SFeqb (Pcm.gain a) (of_int 1)) then amplify_all (Pcm.gain a) buffer
        else Some buffer in
      match amplified with
      | Some samples =>
          (Returned (mkAudioBuffer samples (to_size_t (Pcm.sample_rate a))
                       (to_size_t (Pcm.channels a))), w)
      | None => (Undefined, w)
      end
  end.

End Frame.

Ltac pcm_simpl :=
  cbn [negb fst snd Pcm.emit Pcm.done Pcm.audio Pcm.set_capture_handle
       Pcm.set_sample_rate Pcm.set_gain Pcm.capture_handle Pcm.sample_rate
       Pcm.channels Pcm.gain].

Section PcmFacts.

Local Open Scope Z_scope.

Variable lib : Pcm.library.

(** The set-up calls among some effects, with their results. *)
Definition setup_calls (effects : list Pcm.effect) : list (Pcm.step * Z) :=
  flat_map (fun e => match e with Pcm.alsa s err => [(s, err)] | _ => [] end)
           effects.

(** The steps up to and including the first whose result is negative. *)
Fixpoint through_failure (result : Pcm.step -> Z) (l : list Pcm.step)
  : list Pcm.step :=
  match l with
  | [] => []
  | s :: rest =>
      if result s <? 0 then [s] else s :: through_failure result rest
  end.

(** Devices opened and devices closed. *)
Definition devices_opened (effects : list Pcm.effect) : nat :=
  length (filter (fun e => match e with
                           | Pcm.alsa Pcm.snd_pcm_open err => negb (err <? 0)
                           | _ => false
                           end) effects).

Definition devices_closed (effects : list Pcm.effect) : nat :=
  length (filter (fun e => match e with
                           | Pcm.snd_pcm_close => true
                           | _ => false
                           end) effects).

Lemma devices_opened_app l1 l2 :
  devices_opened (l1 ++ l2) = (devices_opened l1 + devices_opened l2)%nat.
Proof. unfold devices_opened. now rewrite filter_app, length_app. Qed.

Lemma devices_closed_app l1 l2 :
  devices_closed (l1 ++ l2) = (devices_closed l1 + devices_closed l2)%nat.
Proof. unfold devices_closed. now rewrite filter_app, length_app. Qed.

(** What one run of [initializeALSA] adds to the effects and does to the
    object. *)
Record run_of_setup (w : Pcm.world) (ok : bool) (w' : Pcm.world)
  (tail : list Pcm.effect) : Prop := mkRun {
  run_done : Pcm.done w' = Pcm.done w ++ tail;
  run_calls :
    let n := length (filter Pcm.is_open (Pcm.done w)) in
    setup_calls tail
    = map (fun s => (s, Pcm.returns lib n s))
          (through_failure (Pcm.returns lib n) Pcm.steps);
  run_ok :
    let n := length (filter Pcm.is_open (Pcm.done w)) in
    ok = forallb (fun s => negb (Pcm.returns lib n s <? 0)) Pcm.steps;
  run_closed : devices_closed tail = 0%nat;
  run_opened :
    let n := length (filter Pcm.is_open (Pcm.done w)) in
    devices_opened tail
    = if Pcm.returns lib n Pcm.snd_pcm_open <? 0 then 0%nat else 1%nat;
  run_rate :
    let n := length (filter Pcm.is_open (Pcm.done w)) in
    ok = true ->
    Pcm.sample_rate (Pcm.audio w')
    = if Pcm.rate_near lib n =? Pcm.to_unsigned (Pcm.sample_rate (Pcm.audio w))
      then Pcm.sample_rate (Pcm.audio w) else Pcm.to_int (Pcm.rate_near lib n);
  run_handle :
    let n := length (filter Pcm.is_open (Pcm.done w)) in
    Pcm.capture_handle (Pcm.audio w')
    = if Pcm.returns lib n Pcm.snd_pcm_open <? 0
      then Pcm.capture_handle (Pcm.audio w) else Some n;
  run_rest :
    Pcm.channels (Pcm.audio w') = Pcm.channels (Pcm.audio w)
    /\ Pcm.gain (Pcm.audio w') = Pcm.gain (Pcm.audio w)
}.

Lemma initializeALSA_run (w : Pcm.world) :
  exists tail,
    run_of_setup w (fst (Pcm.initializeALSA lib w))
                 (snd (Pcm.initializeALSA lib w)) tail.
Proof.
  unfold Pcm.initializeALSA, Pcm.attempt.
  set (n := length (filter Pcm.is_open (Pcm.done w))).
  repeat
    match goal with
    | |- context [Pcm.returns lib n ?s <? 0] =>
        let E := fresh "E" in
        destruct (Pcm.returns lib n s <? 0) eqn:E; pcm_simpl
    | |- context [Pcm.rate_near lib n =? ?u] =>
        let R := fresh "R" in
        destruct (Pcm.rate_near lib n =? u) eqn:R; pcm_simpl
    end;
    eexists; split; pcm_simpl; fold n;
    rewrite <- ?app_assoc; cbn [app];
    unfold devices_opened;
    cbn [setup_calls flat_map app through_failure Pcm.steps map forallb
         filter length];
    rewrite ?E, ?E0, ?E1, ?E2, ?E3, ?E4, ?E5, ?E6;
    first [ reflexivity | split; reflexivity | discriminate
          | intros _; rewrite ?R; reflexivity
          | simpl filter; rewrite ?E; reflexivity ].
Qed.

End PcmFacts.

(** ** The life of an [AudioCapture] *)

Module PcmLife.

(** A call of a public member function. *)
Inductive call : Type :=
| SetGain (gain : spec_float)
| SetSampleRate (sample_rate : Z)
| CaptureAudio (duration_ms : Z).

(** The calls in order, up to the first that throws (the exception leaves
    the scope of the object, and nothing more is called on it); [None] when
    a call has no defined behaviour. *)
Fixpoint run (lib : Pcm.library) (calls : list call) (w : Pcm.world)
  : option Pcm.world :=
  match calls with
  | [] => Some w
  | SetGain gain :: rest => run lib rest (Pcm.setGain gain w)
  | SetSampleRate sample_rate :: rest =>
      let (ok, w') := Pcm.setSampleRate lib sample_rate w in
      if ok then run lib rest w' else Some w'
  | CaptureAudio duration_ms :: rest =>
      match Frame.captureAudio lib duration_ms w with
      | (Frame.Returned _, w') => run lib rest w'
      | (Frame.Threw, w') => Some w'
      | (Frame.Undefined, _) => None
      end
  end.

(** The effects over the life of an object: construction, the calls, the
    destructor. A constructor that throws is followed by nothing. *)
Definition life (lib : Pcm.library) (sample_rate channels : Z)
  (calls : list call) : option (list Pcm.effect) :=
  let (ok, w) := Pcm.construct lib sample_rate channels in
  if ok then
    match run lib calls w with
    | Some w' => Some (Pcm.done (Pcm.closeALSA w'))
    | None => None
    end
  else Some (Pcm.done w).

End PcmLife.

Section PcmLifeFacts.

Variable lib : Pcm.library.

(** Every device opened and not yet closed is the one the handle refers
    to. *)
Definition balanced (w : Pcm.world) : Prop :=
  devices_opened (Pcm.done w)
  = devices_closed (Pcm.done w)
    + match Pcm.capture_handle (Pcm.audio w) with Some _ => 1 | None => 0 end.

Lemma closeALSA_balanced w :
  balanced w ->
  balanced (Pcm.closeALSA w)
  /\ Pcm.capture_handle (Pcm.audio (Pcm.closeALSA w)) = None.
Proof.
  unfold balanced, Pcm.closeALSA. intros Hbal.
  destruct (Pcm.capture_handle (Pcm.audio w)) eqn:E; pcm_simpl.
  - split; [|reflexivity].
    rewrite devices_opened_app, devices_closed_app. cbn. lia.
  - rewrite E. auto.
Qed.

Lemma initializeALSA_balanced w :
  Pcm.capture_handle (Pcm.audio w) = None ->
  balanced w -> balanced (snd (Pcm.initializeALSA lib w)).
Proof.
  intros Hnone Hbal. destruct (initializeALSA_run lib w) as [tail Hrun].
  unfold balanced in *.
  rewrite (run_done _ _ _ _ _ Hrun), devices_opened_app, devices_closed_app.
  rewrite (run_closed _ _ _ _ _ Hrun), (run_opened _ _ _ _ _ Hrun),
    (run_handle _ _ _ _ _ Hrun), Hnone in *.
  cbv zeta.
  destruct (Pcm.returns lib _ Pcm.snd_pcm_open <? 0)%Z; lia.
Qed.

Lemma captureAudio_balanced duration_ms w :
  balanced w -> balanced (snd (Frame.captureAudio lib duration_ms w)).
Proof.
  intros Hbal. unfold Frame.captureAudio.
  repeat match goal with
         | |- context [if ?b then _ else _] => destruct b
         | |- context [match ?o with Some _ => _ | None => _ end] =>
             destruct o eqn:?
         end; pcm_simpl; try exact Hbal;
    unfold balanced in *; pcm_simpl;
    rewrite ?devices_opened_app, ?devices_closed_app; cbn;
    repeat match goal with
           | H : Pcm.capture_handle _ = _ |- _ => rewrite H in *
           end; lia.
Qed.

Lemma run_balanced calls : forall w w',
  balanced w -> PcmLife.run lib calls w = Some w' -> balanced w'.
Proof.
  induction calls as [|c calls IH]; intros w w' Hbal Hrun; cbn [PcmLife.run] in Hrun.
  - now injection Hrun as <-.
  - destruct c as [g|r|d].
    + apply (IH (Pcm.setGain g w)); [exact Hbal | exact Hrun].
    + unfold Pcm.setSampleRate in Hrun.
      destruct (negb (r =? Pcm.sample_rate (Pcm.audio w))%Z).
      * destruct (closeALSA_balanced (Pcm.set_sample_rate r w) Hbal)
          as [Hb Hn].
        pose proof (initializeALSA_balanced _ Hn Hb) as Hinit.
        destruct (Pcm.initializeALSA lib _) as [ok w1]. cbn [snd] in Hinit.
        destruct ok; [now apply (IH w1) | now injection Hrun as <-].
      * now apply (IH w).
    + pose proof (captureAudio_balanced d w Hbal) as Hcap.
      destruct (Frame.captureAudio lib d w) as [[buffer| |] w1];
        cbn [snd] in Hcap; [now apply (IH w1) | now injection Hrun as <- |
        discriminate].
Qed.

End PcmLifeFacts.

(** [initializeALSA] makes its eight calls in order, stops at the first
    that returns a negative value, and returns [true] exactly when none
    does; on success the object holds the rate the device chose when that
    differs from the rate asked for. *)
Theorem initializeALSA_stops_at_first_failure (lib : Pcm.library) (w : Pcm.world) :
  let n := length (filter Pcm.is_open (Pcm.done w)) in
  let ok := fst (Pcm.initializeALSA lib w) in
  let w' := snd (Pcm.initializeALSA lib w) in
  ok = forallb (fun s => negb (Pcm.returns lib n s <? 0)%Z) Pcm.steps /\
  (exists tail,
     Pcm.done w' = Pcm.done w ++ tail /\
     setup_calls tail
     = map (fun s => (s, Pcm.returns lib n s))
           (through_failure (Pcm.returns lib n) Pcm.steps)) /\
  (ok = true ->
     Pcm.sample_rate (Pcm.audio w')
     = if (Pcm.rate_near lib n =? Pcm.to_unsigned (Pcm.sample_rate (Pcm.audio w)))%Z
       then Pcm.sample_rate (Pcm.audio w) else Pcm.to_int (Pcm.rate_near lib n)).
Proof.
  cbv zeta. destruct (initializeALSA_run lib w) as [tail Hrun].
  split; [exact (run_ok _ _ _ _ _ Hrun)|]. split.
  - exists tail. split; [exact (run_done _ _ _ _ _ Hrun)|].
    exact (run_calls _ _ _ _ _ Hrun).
  - exact (run_rate _ _ _ _ _ Hrun).
Qed.

(** A device on which the format cannot be set, and one that runs at
    48000 Hz when 44100 Hz are asked for. *)
Lemma initializeALSA_stops_at_first_failure_example :
  let refuses_format :=
    Pcm.mkLibrary
      (fun _ s => match s with
                  | Pcm.snd_pcm_hw_params_set_format => (-22)%Z
                  | _ => 0%Z
                  end)
      (fun _ => 44100%Z) (fun _ => 0%Z) (fun _ => []) (fun _ => "Invalid argument"%string) in
  let other_rate :=
    Pcm.mkLibrary (fun _ _ => 0%Z) (fun _ => 48000%Z) (fun _ => 0%Z) (fun _ => [])
                  (fun _ => ""%string) in
  fst (Pcm.construct refuses_format 44100 1) = false /\
  Pcm.sample_rate (Pcm.audio (snd (Pcm.construct other_rate 44100 1))) = 48000%Z.
Proof.
  intros refuses_format other_rate. split.
  - apply (initializeALSA_stops_at_first_failure refuses_format).
  - apply (initializeALSA_stops_at_first_failure other_rate). reflexivity.
Defined.

(** Over the life of an [AudioCapture] whose constructor returns, whatever
    the library answers and whatever is called (re-initialisations by
    [setSampleRate] included, also when one throws): every device opened is
    closed exactly once. When the constructor throws nothing is ever
    closed: if [snd_pcm_open] had succeeded and a later call failed, the
    device stays open. *)
Theorem audio_device_closed_unless_constructor_throws (lib : Pcm.library)
  (sample_rate channels : Z) (calls : list PcmLife.call)
  (effects : list Pcm.effect) :
  PcmLife.life lib sample_rate channels calls = Some effects ->
  (fst (Pcm.construct lib sample_rate channels) = true ->
     devices_opened effects = devices_closed effects) /\
  (fst (Pcm.construct lib sample_rate channels) = false ->
     devices_closed effects = 0 /\
     devices_opened effects
     = if (Pcm.returns lib 0 Pcm.snd_pcm_open <? 0)%Z then 0 else 1).
Proof.
  unfold PcmLife.life, Pcm.construct.
  set (w0 := Pcm.mkWorld _ []).
  destruct (initializeALSA_run lib w0) as [tail Hrun].
  assert (Hbal : balanced (snd (Pcm.initializeALSA lib w0)))
    by (apply initializeALSA_balanced; reflexivity).
  destruct (Pcm.initializeALSA lib w0) as [ok w1]. cbn [fst snd] in *.
  intros Hlife. split; intros ->.
  - destruct (PcmLife.run lib calls w1) as [w2|] eqn:Hcalls; [|discriminate].
    injection Hlife as <-.
    destruct (closeALSA_balanced w2 (run_balanced lib calls w1 w2 Hbal Hcalls))
      as [Hb Hn].
    unfold balanced in Hb. rewrite Hn in Hb. lia.
  - injection Hlife as <-. rewrite (run_done _ _ _ _ _ Hrun). cbn [Pcm.done w0 app].
    split; [exact (run_closed _ _ _ _ _ Hrun) | exact (run_opened _ _ _ _ _ Hrun)].
Qed.

(** A device that opens but refuses the format, and a healthy device whose
    rate is changed once. *)
Lemma audio_device_closed_unless_constructor_throws_example :
  let refuses_format :=
    Pcm.mkLibrary
      (fun _ s => match s with
                  | Pcm.snd_pcm_hw_params_set_format => (-22)%Z
                  | _ => 0%Z
                  end)
      (fun _ => 44100%Z) (fun _ => 0%Z) (fun _ => []) (fun _ => "Invalid argument"%string) in
  let healthy_device :=
    Pcm.mkLibrary (fun _ _ => 0%Z) (fun _ => 16000%Z) (fun _ => 0%Z) (fun _ => [])
                  (fun _ => ""%string) in
  (forall effects,
     PcmLife.life refuses_format 44100 1 [] = Some effects ->
     devices_opened effects = 1 /\ devices_closed effects = 0) /\
  (forall effects,
     PcmLife.life healthy_device 16000 1 [PcmLife.SetSampleRate 8000] = Some effects ->
     devices_opened effects = devices_closed effects).
Proof.
  intros refuses_format healthy_device. split; intros effects Hlife.
  - destruct (audio_device_closed_unless_constructor_throws
                refuses_format 44100 1 [] effects Hlife) as [_ H].
    destruct (H eq_refl) as [Hc Ho]. split; assumption.
  - destruct (audio_device_closed_unless_constructor_throws
                healthy_device 16000 1 [PcmLife.SetSampleRate 8000] effects Hlife)
      as [H _].
    exact (H eq_refl).
Defined.

(** ** The captured frame *)

Section FrameFacts.

Local Open Scope Z_scope.

(** A gain that is a number: neither an infinity nor a NaN. *)
Definition finite_gain (gain : spec_float) : bool :=
  match gain with
  | S754_zero _ | S754_finite _ _ _ => true
  | _ => false
  end.

Lemma length_amplify_all gain buffer : forall amplified,
  Frame.amplify_all gain buffer = Some amplified ->
  length amplified = length buffer.
Proof.
  induction buffer as [|sample rest IH]; intros amplified H;
    cbn [Frame.amplify_all] in H.
  - now injection H as <-.
  - destruct (Frame.amplify gain sample); [|discriminate].
    destruct (Frame.amplify_all gain rest) as [zs|]; [|discriminate].
    injection H as <-. cbn [length]. now rewrite (IH zs).
Qed.

(** Silence stays silence under every finite gain. *)
Lemma amplify_silence gain :
  finite_gain gain = true -> Frame.amplify gain 0 = Some 0.
Proof. destruct gain as [s|s| |s m e]; try discriminate; reflexivity. Qed.

Lemma amplify_all_silence gain n :
  finite_gain gain = true ->
  Frame.amplify_all gain (repeat 0 n) = Some (repeat 0 n).
Proof.
  intros Hg. induction n as [|n IH]; [reflexivity|].
  cbn [repeat Frame.amplify_all]. now rewrite amplify_silence, IH.
Qed.

Lemma length_padded {A : Type} (n : nat) (l : list A) (x : A) :
  length (firstn n (l ++ repeat x n)) = n.
Proof. rewrite length_firstn, length_app, repeat_length. lia. Qed.

End FrameFacts.

(** [captureAudio] never returns a short buffer: whenever it returns, the
    buffer has as many samples as were asked for (the frames for the
    duration at the object's rate, times the channels), however many
    frames the device delivered. When [snd_pcm_readi] fails, the call
    reports it, tries to recover and returns that many zeros, for every
    finite gain: the caller gets silence, not an error. *)
Theorem captureAudio_returns_full_buffer (lib : Pcm.library) (duration_ms : Z)
  (w : Pcm.world) :
  let a := Pcm.audio w in
  let frames := Z.quot (Pcm.sample_rate a * duration_ms) 1000 in
  let size := (frames * Pcm.channels a)%Z in
  let err := Pcm.readi lib (length (filter Pcm.is_readi (Pcm.done w))) in
  (forall buffer w',
     Frame.captureAudio lib duration_ms w = (Frame.Returned buffer, w') ->
     length (Frame.samples buffer) = Z.to_nat size) /\
  (Pcm.capture_handle a <> None ->
   Frame.in_int (Pcm.sample_rate a * duration_ms) = true ->
   Frame.in_int size = true ->
   (0 <= frames)%Z -> (0 <= Pcm.channels a)%Z ->
   finite_gain (Pcm.gain a) = true ->
   (err < 0)%Z ->
   Frame.captureAudio lib duration_ms w
   = (Frame.Returned
        (Frame.mkAudioBuffer (repeat 0%Z (Z.to_nat size))
           (Frame.to_size_t (Pcm.sample_rate a))
           (Frame.to_size_t (Pcm.channels a))),
      Pcm.mkWorld a
        (Pcm.done w
         ++ [Pcm.snd_pcm_readi frames;
             Pcm.cerr ("Error reading from PCM device: "
                       ++ Pcm.snd_strerror lib err)%string;
             Pcm.snd_pcm_recover err]))).
Proof.
  cbv zeta. split.
  - intros buffer w'. unfold Frame.captureAudio.
    repeat match goal with
           | |- context [if negb (Frame.in_int ?z) then _ else _] =>
               destruct (negb (Frame.in_int z)); [discriminate|]
           | |- context [if (?z <? 0)%Z then (Frame.Threw, _) else _] =>
               destruct (z <? 0)%Z; [discriminate|]
           end.
    destruct (Pcm.capture_handle (Pcm.audio w)); [|discriminate].
    destruct (negb (SFeqb (Pcm.gain (Pcm.audio w)) (Frame.of_int 1))).
    + destruct (Frame.amplify_all _ _) as [amplified|] eqn:Ha; [|discriminate].
      intros H. injection H as <- _. cbn [Frame.samples].
      rewrite (length_amplify_all _ _ _ Ha). apply length_padded.
    + intros H. injection H as <- _. cbn [Frame.samples]. apply length_padded.
  - intros Hh Hp Hs Hframes Hch Hg Herr. unfold Frame.captureAudio.
    rewrite Hp, Hs. cbn [negb].
    replace (_ <? 0)%Z with false by (symmetry; apply Z.ltb_ge; nia).
    destruct (Pcm.capture_handle (Pcm.audio w)); [|congruence].
    set (err := Pcm.readi lib _) in *.
    replace (Z.to_nat (err * Pcm.channels (Pcm.audio w))) with 0%nat by nia.
    cbn [firstn app]. rewrite firstn_all2 by (rewrite repeat_length; lia).
    replace (err =? _)%Z with false by (symmetry; apply Z.eqb_neq; lia).
    replace (err <? 0)%Z with true by (symmetry; apply Z.ltb_lt; lia).
    cbn [negb]. rewrite amplify_all_silence by exact Hg.
    destruct (negb (SFeqb _ _)); unfold Pcm.emit; cbn [Pcm.audio Pcm.done];
      now rewrite <- !app_assoc.
Qed.

(** One second at 44100 Hz, mono, on a device that answers -32 (broken
    pipe): 44100 zeros. *)
Lemma captureAudio_returns_full_buffer_example :
  let lib :=
    Pcm.mkLibrary (fun _ _ => 0%Z) (fun _ => 44100%Z) (fun _ => (-32)%Z)
                  (fun _ => []) (fun _ => "Broken pipe"%string) in
  let w := snd (Pcm.construct lib 44100 1) in
  fst (Frame.captureAudio lib 1000 w)
  = Frame.Returned (Frame.mkAudioBuffer (repeat 0%Z (Z.to_nat 44100)) 44100 1).
Proof.
  intros lib w.
  destruct (captureAudio_returns_full_buffer lib 1000 w) as [_ H].
  cbv zeta in H. rewrite H; try reflexivity; discriminate.
Defined.
